(** * The thread-identifier pool of [queue.cpp]

    A shallow embedding of [ThreadIDPool] (queue.cpp, lines 87-132), of the
    pthread wrappers it is built on (lines 7-83), and the properties of the
    pool that follow from the code.

    The file has three layers:
    - the process-level vocabulary: [printf] calls, [exit], the [DIE] macro
      and the eight checked wrappers around the pthread primitives;
    - the pool object and its four methods.  [initializePool] and
      [destroyPool] run before and after the parallel region and are plain
      functions; [getIndexBlocking] and [returnIndex] are called by many
      threads at once and are given statement by statement, one transition
      per source line, so that threads can be interleaved;
    - the system of threads sharing the pool, its reachable states, and the
      invariants of those states. *)

From Stdlib Require Import ZArith List String Lia Permutation.
From stdpp Require Import base tactics option list numbers strings sorting.
From Equations Require Import Equations.

Local Open Scope string_scope.
Local Open Scope list_scope.
Local Open Scope Z_scope.

(** ** Machine integers *)

(** [int] is a 32-bit signed integer.  Values are carried as [Z]; the only
    arithmetic the pool does on them is the increment of the loop counter in
    [initializePool], which is shown below to stay inside the range. *)
Definition INT_MIN : Z := - 2 ^ 31.
Definition INT_MAX : Z := 2 ^ 31 - 1.
Definition int_range (z : Z) : Prop := INT_MIN ≤ z ≤ INT_MAX.

(** ** Output and process termination *)

(** One argument of a [printf] call.  [ArgFILE] is the expansion of
    [__FILE__], which depends on how the file was named on the compiler's
    command line. *)
Inductive printf_arg : Type :=
| ArgInt (z : Z)
| ArgFILE.

(** A call [printf(format, args...)]; the format string is kept as written
    in the source, escapes included. *)
Record printf_call : Type := Printf { format : string; args : list printf_arg }.

(** What a call does to the process: it comes back with a value, or the
    process ends through [exit(status)] after the listed [printf] calls. *)
Inductive outcome (A : Type) : Type :=
| Normal (a : A)
| Exit (status : Z) (printed : list printf_call).
Arguments Normal {A} a.
Arguments Exit {A} status printed.

Definition outcome_bind {A B} (o : outcome A) (k : A → outcome B) : outcome B :=
  match o with
  | Normal a => k a
  | Exit st out => Exit st out
  end.

Notation "x ←! o ; k" := (outcome_bind o (λ x, k))
  (at level 20, o at level 100, k at level 200, right associativity,
   format "x  ←!  o ;  '/' k").

(** The macro [DIE(...)] (lines 7-11) at source line [line]. *)
Definition DIE {A} (line : Z) (fmt : string) (e : Z) : outcome A :=
  Exit 1 [ Printf "Error detected at line %d in %s\n" [ArgInt line; ArgFILE];
           Printf fmt [ArgInt e] ].

(** ** The pthread primitives

    The primitives are library code.  They are modelled after POSIX: each
    takes the code [e] it is going to report, chosen by the environment, and
    the object it works on.  A primitive that reports a nonzero code leaves
    its object as it was.  The blocking primitives return [None] where the
    caller cannot proceed: it is blocked, or POSIX leaves the behaviour
    undefined. *)

Definition tid : Type := nat.
Bind Scope nat_scope with tid.

(** [pthread_mutex_t] with default attributes. *)
Inductive Mutex_t : Type :=
| MutexInvalid                (* not initialised, or destroyed *)
| MutexFree
| MutexHeld (owner : tid).

(** [pthread_cond_t]: the threads blocked on it. *)
Inductive Cond_t : Type :=
| CondInvalid
| CondReady (waiters : list tid).

Global Instance Mutex_t_eq_dec : EqDecision Mutex_t.
Proof. solve_decision. Defined.
Global Instance Cond_t_eq_dec : EqDecision Cond_t.
Proof. solve_decision. Defined.

Definition pthread_mutex_init (e : Z) (m : Mutex_t) : Mutex_t :=
  if decide (e = 0) then MutexFree else m.

Definition pthread_mutex_destroy (e : Z) (m : Mutex_t) : Mutex_t :=
  if decide (e = 0) then MutexInvalid else m.

Definition pthread_mutex_lock (t : tid) (e : Z) (m : Mutex_t) : option Mutex_t :=
  if decide (e = 0) then
    match m with
    | MutexFree => Some (MutexHeld t)
    | MutexHeld _ => None               (* blocked *)
    | MutexInvalid => None              (* undefined *)
    end
  else Some m.

Definition pthread_mutex_unlock (t : tid) (e : Z) (m : Mutex_t) : option Mutex_t :=
  if decide (e = 0) then
    match m with
    | MutexHeld o => if decide (o = t) then Some MutexFree else None
    | _ => None                         (* undefined *)
    end
  else Some m.

Definition pthread_cond_init (e : Z) (c : Cond_t) : Cond_t :=
  if decide (e = 0) then CondReady [] else c.

Definition pthread_cond_destroy (e : Z) (c : Cond_t) : Cond_t :=
  if decide (e = 0) then CondInvalid else c.

Definition unblock (t : tid) (ws : list tid) : list tid :=
  filter (λ w, w ≠ t) ws.

(** [pthread_cond_signal] unblocks one of the waiting threads if there is
    one; [w] is the environment's choice. *)
Definition pthread_cond_signal (e : Z) (w : option tid) (c : Cond_t) : option Cond_t :=
  if decide (e = 0) then
    match c, w with
    | CondReady ws, Some t =>
        if decide (t ∈ ws) then Some (CondReady (unblock t ws)) else None
    | CondReady ws, None =>
        if decide (ws = []) then Some c else None
    | CondInvalid, _ => None            (* undefined *)
    end
  else Some c.

(** [pthread_cond_wait] takes two transitions.  On entry the caller, who
    holds the mutex, releases it and joins the waiters in one atomic step. *)
Definition pthread_cond_wait_enter (t : tid) (c : Cond_t) (m : Mutex_t)
  : option (Cond_t * Mutex_t) :=
  match c, m with
  | CondReady ws, MutexHeld o =>
      if decide (o = t) then Some (CondReady (ws ++ [t]), MutexFree) else None
  | _, _ => None                        (* undefined *)
  end.

(** The call returns [0] once the caller has been unblocked, by a signal or
    spuriously, and has taken the mutex again.  A nonzero code may be
    reported at any time. *)
Definition pthread_cond_wait_return (t : tid) (e : Z) (c : Cond_t) (m : Mutex_t)
  : option Mutex_t :=
  if decide (e = 0) then
    match c, m with
    | CondReady ws, MutexFree =>
        if decide (t ∈ ws) then None (* blocked *) else Some (MutexHeld t)
    | _, _ => None
    end
  else Some m.

(** A spurious wakeup of thread [t]. *)
Definition spurious_wakeup (t : tid) (c : Cond_t) : option Cond_t :=
  match c with
  | CondReady ws => if decide (t ∈ ws) then Some (CondReady (unblock t ws)) else None
  | CondInvalid => None
  end.

(** ** The checked wrappers (lines 21-83) *)

Definition MutexInit (e : Z) (m : Mutex_t) : outcome Mutex_t :=
  let m' := pthread_mutex_init e m in
  if decide (e ≠ 0) then DIE 25 "pthread_mutex_init returned %d" e
  else Normal m'.

Definition MutexDestroy (e : Z) (m : Mutex_t) : outcome Mutex_t :=
  let m' := pthread_mutex_destroy e m in
  if decide (e ≠ 0) then DIE 33 "pthread_mutex_destroy returned %d" e
  else Normal m'.

Definition MutexLock (t : tid) (e : Z) (m : Mutex_t) : option (outcome Mutex_t) :=
  m' ← pthread_mutex_lock t e m;
  Some (if decide (e ≠ 0) then DIE 41 "pthread_mutex_lock returned %d" e
        else Normal m').

Definition MutexUnlock (t : tid) (e : Z) (m : Mutex_t) : option (outcome Mutex_t) :=
  m' ← pthread_mutex_unlock t e m;
  Some (if decide (e ≠ 0) then DIE 49 "pthread_mutex_unlock returned %d" e
        else Normal m').

Definition CondInit (e : Z) (c : Cond_t) : outcome Cond_t :=
  let c' := pthread_cond_init e c in
  if decide (e ≠ 0) then DIE 57 "pthread_cond_init returned %d" e
  else Normal c'.

Definition CondDestroy (e : Z) (c : Cond_t) : outcome Cond_t :=
  let c' := pthread_cond_destroy e c in
  if decide (e ≠ 0) then DIE 65 "pthread_cond_destroy returned %d" e
  else Normal c'.

Definition CondSignal (e : Z) (w : option tid) (c : Cond_t) : option (outcome Cond_t) :=
  c' ← pthread_cond_signal e w c;
  Some (if decide (e ≠ 0) then DIE 73 "pthread_cond_signal returned %d" e
        else Normal c').

(** [CondWait] from the point where [pthread_cond_wait] returns. *)
Definition CondWait (t : tid) (e : Z) (c : Cond_t) (m : Mutex_t)
  : option (outcome Mutex_t) :=
  m' ← pthread_cond_wait_return t e c m;
  Some (if decide (e ≠ 0) then DIE 81 "pthread_cond_wait returned %d" e
        else Normal m').

(** ** [std::list<int>] as the pool uses it *)

Definition clear (l : list Z) : list Z := [].
Definition push_back (i : Z) (l : list Z) : list Z := l ++ [i].
Definition empty (l : list Z) : bool := bool_decide (l = []).
(** [front] of an empty list is undefined. *)
Definition front (l : list Z) : option Z := head l.
Definition pop_front (l : list Z) : option (list Z) :=
  match l with
  | [] => None
  | _ :: rest => Some rest
  end.

(** ** The pool (lines 87-132) *)

Record ThreadIDPool : Type := MkPool {
  indexList : list Z;                   (* First in first out queue *)
  lock : Mutex_t;
  pool_not_empty_condition : Cond_t
}.

Definition with_indexList (l : list Z) (p : ThreadIDPool) : ThreadIDPool :=
  MkPool l (lock p) (pool_not_empty_condition p).
Definition with_lock (m : Mutex_t) (p : ThreadIDPool) : ThreadIDPool :=
  MkPool (indexList p) m (pool_not_empty_condition p).
Definition with_condition (c : Cond_t) (p : ThreadIDPool) : ThreadIDPool :=
  MkPool (indexList p) (lock p) c.

(** The loop of lines 97-98,
    [for (int i = 0; i < n_thread; i++) indexList.push_back(i);],
    from the counter value [i] on. *)
Equations? fill (i n_thread : Z) (l : list Z) : list Z
  by wf (Z.to_nat (n_thread - i)) lt :=
fill i n_thread l with decide (i < n_thread) := {
  | left _ => fill (i + 1) n_thread (push_back i l)
  | right _ => l
}.
Proof. lia. Qed.

(** [initializePool] (lines 94-101); [e_mutex] and [e_cond] are the codes
    reported by [pthread_mutex_init] and [pthread_cond_init]. *)
Definition initializePool (n_thread : Z) (e_mutex e_cond : Z) (p : ThreadIDPool)
  : outcome ThreadIDPool :=
  let p := with_indexList (clear (indexList p)) p in
  let p := with_indexList (fill 0 n_thread (indexList p)) p in
  m ←! MutexInit e_mutex (lock p);
  let p := with_lock m p in
  c ←! CondInit e_cond (pool_not_empty_condition p);
  Normal (with_condition c p).

(** [destroyPool] (lines 103-108). *)
Definition destroyPool (e_mutex e_cond : Z) (p : ThreadIDPool)
  : outcome ThreadIDPool :=
  let p := with_indexList (clear (indexList p)) p in
  m ←! MutexDestroy e_mutex (lock p);
  let p := with_lock m p in
  c ←! CondDestroy e_cond (pool_not_empty_condition p);
  Normal (with_condition c p).

(** ** The methods called from the parallel region

    [getIndexBlocking] and [returnIndex] are run by several threads at once,
    so each is given as a function from a program point to the effect of the
    statement at that point.  The program points carry the numbers of the
    source lines. *)

Inductive get_pc : Type :=
| L113            (* MutexLock(&lock); *)
| L114            (* while (indexList.empty()) *)
| L115            (*   CondWait(&pool_not_empty_condition, &lock); *)
| L115_waiting    (*   ... inside pthread_cond_wait *)
| L117            (* value = indexList.front(); *)
| L118            (* indexList.pop_front(); *)
| L120            (* MutexUnlock(&lock); *)
| L121.           (* return value; *)

Inductive return_pc : Type :=
| L126            (* MutexLock(&lock); *)
| L127            (* indexList.push_back(i); *)
| L128            (* CondSignal(&pool_not_empty_condition); *)
| L129.           (* MutexUnlock(&lock); *)

(** Where a thread is: outside the pool, or inside one of the two methods
    with that method's local ([value]) or parameter ([i]). *)
Inductive frame : Type :=
| Outside
| InGet (pc : get_pc) (value : Z)
| InReturn (pc : return_pc) (i : Z).

Global Instance get_pc_eq_dec : EqDecision get_pc.
Proof. solve_decision. Defined.
Global Instance return_pc_eq_dec : EqDecision return_pc.
Proof. solve_decision. Defined.
Global Instance frame_eq_dec : EqDecision frame.
Proof. solve_decision. Defined.

(** After a statement the thread is at another program point of the same
    call, or the call has returned. *)
Inductive control (R : Type) : Type :=
| Goto (f : frame)
| Finish (r : R).
Arguments Goto {R} f.
Arguments Finish {R} r.

(** [getIndexBlocking] (lines 110-122), one statement of thread [t]; [e] is
    the code reported by the pthread primitive the statement calls, if it
    calls one. *)
Definition getIndexBlocking_step (t : tid) (pc : get_pc) (value : Z) (e : Z)
    (p : ThreadIDPool) : option (outcome (ThreadIDPool * control Z)) :=
  match pc with
  | L113 =>
      o ← MutexLock t e (lock p);
      Some (m ←! o; Normal (with_lock m p, Goto (InGet L114 value)))
  | L114 =>
      if empty (indexList p)
      then Some (Normal (p, Goto (InGet L115 value)))
      else Some (Normal (p, Goto (InGet L117 value)))
  | L115 =>
      '(c, m) ← pthread_cond_wait_enter t (pool_not_empty_condition p) (lock p);
      Some (Normal (with_condition c (with_lock m p), Goto (InGet L115_waiting value)))
  | L115_waiting =>
      o ← CondWait t e (pool_not_empty_condition p) (lock p);
      Some (m ←! o; Normal (with_lock m p, Goto (InGet L114 value)))
  | L117 =>
      v ← front (indexList p);
      Some (Normal (p, Goto (InGet L118 v)))
  | L118 =>
      l ← pop_front (indexList p);
      Some (Normal (with_indexList l p, Goto (InGet L120 value)))
  | L120 =>
      o ← MutexUnlock t e (lock p);
      Some (m ←! o; Normal (with_lock m p, Goto (InGet L121 value)))
  | L121 =>
      Some (Normal (p, Finish value))
  end.

(** [returnIndex] (lines 124-130), one statement of thread [t]; [w] is the
    waiter that [pthread_cond_signal] unblocks. *)
Definition returnIndex_step (t : tid) (pc : return_pc) (i : Z) (e : Z)
    (w : option tid) (p : ThreadIDPool) : option (outcome (ThreadIDPool * control unit)) :=
  match pc with
  | L126 =>
      o ← MutexLock t e (lock p);
      Some (m ←! o; Normal (with_lock m p, Goto (InReturn L127 i)))
  | L127 =>
      Some (Normal (with_indexList (push_back i (indexList p)) p, Goto (InReturn L128 i)))
  | L128 =>
      o ← CondSignal e w (pool_not_empty_condition p);
      Some (c ←! o; Normal (with_condition c p, Goto (InReturn L129 i)))
  | L129 =>
      o ← MutexUnlock t e (lock p);
      Some (m ←! o; Normal (with_lock m p, Finish ()))
  end.

(** ** The threads that share the pool *)

(** [held] is the callers' side of the contract: the identifiers that
    [getIndexBlocking] has returned and that have not been passed to
    [returnIndex] since. *)
Record system : Type := MkSystem {
  pool : ThreadIDPool;                  (* the global [threadIDpool] *)
  threads : list frame;
  held : list Z;
  stdout : list printf_call;
  exited : option Z
}.

(** What can happen next to thread [t]. *)
Inductive action : Type :=
| CallGet                               (* it calls thread_id_pool_get_index() *)
| CallReturn (i : Z)                    (* it calls thread_id_pool_return_index(i) *)
| Stmt (e : Z) (w : option tid)         (* it runs the statement it is at *)
| Wakeup.                               (* it is unblocked without a signal *)

Fixpoint remove_first (i : Z) (l : list Z) : list Z :=
  match l with
  | [] => []
  | x :: l' => if decide (x = i) then l' else x :: remove_first i l'
  end.

Definition settle {R} (t : tid) (s : system) (ret : R → list Z → list Z)
    (o : outcome (ThreadIDPool * control R)) : system :=
  match o with
  | Exit st out =>
      MkSystem (pool s) (threads s) (held s) (stdout s ++ out) (Some st)
  | Normal (p, Goto f) =>
      MkSystem p (<[t:=f]> (threads s)) (held s) (stdout s) (exited s)
  | Normal (p, Finish r) =>
      MkSystem p (<[t:=Outside]> (threads s)) (ret r (held s)) (stdout s) (exited s)
  end.

(** What thread [t], whose frame is [f], does next. *)
Definition thread_step (t : tid) (f : frame) (a : action) (s : system)
  : option system :=
  match f, a with
  | Outside, CallGet =>
      (* line 112: int value = -1; *)
      Some (MkSystem (pool s) (<[t:=InGet L113 (-1)]> (threads s))
              (held s) (stdout s) (exited s))
  | Outside, CallReturn i =>
      Some (MkSystem (pool s) (<[t:=InReturn L126 i]> (threads s))
              (remove_first i (held s)) (stdout s) (exited s))
  | InGet pc value, Stmt e _ =>
      settle t s (λ r h, r :: h) <$> getIndexBlocking_step t pc value e (pool s)
  | InReturn pc i, Stmt e w =>
      settle t s (λ _ h, h) <$> returnIndex_step t pc i e w (pool s)
  | _, Wakeup =>
      c ← spurious_wakeup t (pool_not_empty_condition (pool s));
      Some (MkSystem (with_condition c (pool s)) (threads s)
              (held s) (stdout s) (exited s))
  | _, _ => None
  end.

(** One transition of the system, taken by thread [t].  Nothing happens
    after [exit]. *)
Definition step (t : tid) (a : action) (s : system) : option system :=
  match exited s with
  | Some _ => None
  | None => f ← threads s !! t; thread_step t f a s
  end.

(** A schedule is run from left to right. *)
Fixpoint execute (sched : list (tid * action)) (s : system) : option system :=
  match sched with
  | [] => Some s
  | (t, a) :: sched' => s' ← step t a s; execute sched' s'
  end.

(** [main] (lines 202-276) initialises the pool and opens the parallel
    region; [n] threads of control then use the pool.  When
    [initializePool] ends the process there is no parallel region: no
    thread exists and no transition follows. *)
Definition start (n : nat) (p : ThreadIDPool) : system :=
  MkSystem p (replicate n Outside) [] [] None.

Definition launch (n : nat) (n_thread : Z) (e_mutex e_cond : Z) (p0 : ThreadIDPool)
  : system :=
  match initializePool n_thread e_mutex e_cond p0 with
  | Normal p => start n p
  | Exit st out => MkSystem p0 [] [] out (Some st)
  end.

(** The static object [threadIDpool] before [main] runs. *)
Definition threadIDpool : ThreadIDPool := MkPool [] MutexInvalid CondInvalid.

(** *** Calls that run undisturbed

    A call by thread [t] that runs from entry to return while no other
    thread moves and no primitive reports an error. *)

Definition go : action := Stmt 0 None.

Definition get_index_alone (t : tid) (s : system) : option (Z * system) :=
  s' ← execute ((t,.) <$> [CallGet; go; go; go; go; go]) s;
  match threads s' !! t with
  | Some (InGet L121 value) => s'' ← step t go s'; Some (value, s'')
  | _ => None
  end.

Definition return_index_alone (t : tid) (i : Z) (w : option tid) (s : system)
  : option system :=
  execute ((t,.) <$> [CallReturn i; go; go; Stmt 0 w; go]) s.

(** [k] calls of [thread_id_pool_get_index] one after the other. *)
Fixpoint get_indices_alone (t : tid) (k : nat) (s : system) : option (list Z * system) :=
  match k with
  | O => Some ([], s)
  | S k' =>
      '(v, s') ← get_index_alone t s;
      '(vs, s'') ← get_indices_alone t k' s';
      Some (v :: vs, s'')
  end.

Fixpoint return_indices_alone (t : tid) (rs : list Z) (s : system) : option system :=
  match rs with
  | [] => Some s
  | r :: rs' => s' ← return_index_alone t r None s; return_indices_alone t rs' s'
  end.

(** ** The callers' contract and the states of the pool *)

(** The contract of [returnIndex]: the identifier passed was returned by
    [getIndexBlocking] and has not been passed back since. *)
Definition disciplined (s : system) (a : action) : bool :=
  match a with
  | CallReturn i => bool_decide (i ∈ held s)
  | _ => true
  end.

(** A schedule in which every call of [returnIndex] keeps the contract. *)
Fixpoint well_behaved (sched : list (tid * action)) (s : system) : bool :=
  match sched with
  | [] => true
  | (t, a) :: sched' =>
      disciplined s a &&
      match step t a s with
      | Some s' => well_behaved sched' s'
      | None => true
      end
  end.

(** The program points between a successful [MutexLock] and the matching
    [MutexUnlock] (or the entry into [pthread_cond_wait]). *)
Definition holds_lock (f : frame) : bool :=
  match f with
  | InGet (L114 | L115 | L117 | L118 | L120) _ => true
  | InReturn (L127 | L128 | L129) _ => true
  | _ => false
  end.

(** The identifier a thread carries between [pop_front] and the return of
    [getIndexBlocking], or between the call of [returnIndex] and
    [push_back]. *)
Definition in_flight (f : frame) : list Z :=
  match f with
  | InGet (L120 | L121) value => [value]
  | InReturn (L126 | L127) i => [i]
  | _ => []
  end.

(** The identifiers that are checked out: taken off the list and not yet
    put back. *)
Definition checked_out (s : system) : list Z :=
  held s ++ concat (in_flight <$> threads s).

(** Every thread inside the critical section owns the mutex. *)
Definition mutual_exclusion (s : system) : Prop :=
  ∀ t f, threads s !! t = Some f → holds_lock f = true →
         lock (pool s) = MutexHeld t.

(** A thread that has left the wait loop finds an identifier at the front
    of the list; once it has read [value], that is the front. *)
Definition front_available (s : system) : Prop :=
  ∀ t f, threads s !! t = Some f →
    match f with
    | InGet L117 _ => indexList (pool s) ≠ []
    | InGet L118 value => ∃ rest, indexList (pool s) = value :: rest
    | _ => True
    end.

(** The available and the checked-out identifiers together are
    [0 .. capacity-1]. *)
Definition conserved (capacity : Z) (s : system) : Prop :=
  indexList (pool s) ++ checked_out s ≡ₚ seqZ 0 capacity.

(** The three facts that every state of a well-behaved run satisfies. *)
Definition pool_invariant (capacity : Z) (s : system) : Prop :=
  mutual_exclusion s ∧ front_available s ∧ conserved capacity s.

(** The program points a thread can be at while it has never seen the list
    non-empty. *)
Definition before_front (f : frame) : bool :=
  match f with
  | Outside => true
  | InGet (L113 | L114 | L115 | L115_waiting) _ => true
  | _ => false
  end.

(** A pool that no call of [getIndexBlocking] can get an identifier from:
    nothing is available and nothing is checked out. *)
Definition starved (s : system) : Prop :=
  indexList (pool s) = [] ∧ held s = [] ∧
  ∀ t f, threads s !! t = Some f → before_front f = true.

(** The statements that call a pthread primitive and check the code it
    reports. *)
Definition checks_primitive (f : frame) : bool :=
  match f with
  | InGet (L113 | L115_waiting | L120) _ => true
  | InReturn (L126 | L128 | L129) _ => true
  | _ => false
  end.

(** A call was flagged if the process has ended or something was printed. *)
Definition flagged (before after : system) : Prop :=
  exited after ≠ None ∨ stdout after ≠ stdout before.

(** No thread is inside the pool, no thread waits on the condition, and the
    mutex is free. *)
Definition quiescent (s : system) : Prop :=
  exited s = None ∧
  lock (pool s) = MutexFree ∧
  pool_not_empty_condition (pool s) = CondReady [] ∧
  Forall (λ f, f = Outside) (threads s).

(** Thread [t] releases [rs] one after the other and then calls
    [getIndexBlocking] as many times; the identifiers it gets. *)
Definition release_then_acquire (t : tid) (rs : list Z) (s : system)
  : option (list Z) :=
  s' ← return_indices_alone t rs s;
  fst <$> get_indices_alone t (length rs) s'.

(** ** Waiting and waking *)

(** The threads blocked on the condition variable. *)
Definition waiters (s : system) : list tid :=
  match pool_not_empty_condition (pool s) with
  | CondReady ws => ws
  | CondInvalid => []
  end.

(** A pool whose mutex and condition variable have been initialised and
    are not in use. *)
Definition ready (p : ThreadIDPool) : Prop :=
  lock p = MutexFree ∧ pool_not_empty_condition p = CondReady [].

(** The mutex is initialised, and when it is held its owner is inside the
    critical section. *)
Definition lock_owned (s : system) : Prop :=
  match lock (pool s) with
  | MutexInvalid => False
  | MutexFree => True
  | MutexHeld o => ∃ f, threads s !! o = Some f ∧ holds_lock f = true
  end.

(** The threads blocked on the condition variable are inside
    [pthread_cond_wait], each listed once. *)
Definition waiters_wait (s : system) : Prop :=
  ∃ ws, pool_not_empty_condition (pool s) = CondReady ws ∧ NoDup ws ∧
        ∀ t, t ∈ ws → ∃ value, threads s !! t = Some (InGet L115_waiting value).

(** A thread that is about to wait has seen the list empty, and it still
    is. *)
Definition empty_seen (s : system) : Prop :=
  ∀ t value, threads s !! t = Some (InGet L115 value) → indexList (pool s) = [].

(** A thread that is inside the pool, not blocked, and has yet to look at
    the list or to signal: it is at the loop test, between the test and
    [pop_front], back from the wait, or between [push_back] and
    [CondSignal]. *)
Definition awake_frame (ws : list tid) (t : tid) (f : frame) : bool :=
  match f with
  | InGet (L114 | L117 | L118) _ => true
  | InGet L115_waiting _ => bool_decide (t ∉ ws)
  | InReturn L128 _ => true
  | _ => false
  end.

Definition awake1 (ws : list tid) (t : tid) (f : frame) : nat :=
  if awake_frame ws t f then 1 else 0.

Fixpoint count_awake (ws : list tid) (t0 : tid) (ths : list frame) : nat :=
  match ths with
  | [] => 0
  | f :: ths' =>
      (awake1 ws t0 f + count_awake ws (S t0) ths')%nat
  end.

Definition awake (s : system) : nat :=
  count_awake (waiters s) 0 (threads s).

(** Identifiers are not left on the list while threads are blocked: there
    are at least as many awake threads as available identifiers. *)
Definition no_lost_wakeup (s : system) : Prop :=
  waiters s = [] ∨ (length (indexList (pool s)) ≤ awake s)%nat.

(** Everything that holds of the pool whoever calls it. *)
Definition pool_sound (s : system) : Prop :=
  mutual_exclusion s ∧ front_available s ∧ lock_owned s ∧
  waiters_wait s ∧ empty_seen s ∧ no_lost_wakeup s.

(** Thread [t] is inside the pool and blocked on the condition. *)
Definition blocked (s : system) (t : tid) : Prop :=
  t ∈ waiters s ∧ ∃ value, threads s !! t = Some (InGet L115_waiting value).

(** A thread that does not need the processor: it is outside the pool, or
    blocked on the condition variable. *)
Definition parked (ws : list tid) (t : tid) (f : frame) : bool :=
  match f with
  | Outside => true
  | InGet L115_waiting _ => bool_decide (t ∈ ws)
  | _ => false
  end.

(** ** The callers (lines 146-200)

    With [USE_CILK] off, [PARALLEL_GET_THREAD_ID()] is
    [thread_id_pool_get_index()] and [PARALLEL_RETURN_THREAD_ID(i)] is
    [thread_id_pool_return_index(i)] (lines 173-174).  The three task
    bodies take an identifier, sleep, print a line and give the identifier
    back.  Which thread runs which loop iteration or task is decided by
    the OpenMP runtime; here any idle thread may be given any piece of
    work. *)

(** One execution of a body, with the values of its parameters and of the
    loop counter. *)
Inductive work : Type :=
| ForInsideTask (task_id loop_id : Z)                   (* lines 179-182 *)
| ForInsideTaskSleep (task_id sleep_time loop_id : Z)   (* lines 188-191 *)
| TaskOnly (task_id : Z).                               (* lines 196-199 *)

(** Where a thread is in the body it runs. *)
Inductive caller : Type :=
| Idle
| Getting (b : work)                  (* in PARALLEL_GET_THREAD_ID() *)
| Sleeping (b : work) (i_thread : Z)  (* sleep(...); *)
| Printing (b : work) (i_thread : Z)  (* printf(...); fflush(stdout); *)
| Releasing (b : work) (i_thread : Z) (* about to call PARALLEL_RETURN_THREAD_ID *)
| Returning (b : work) (i_thread : Z). (* in PARALLEL_RETURN_THREAD_ID(i_thread) *)

(** The line a body prints (lines 181, 190 and 198). *)
Definition report (b : work) (i_thread : Z) : printf_call :=
  match b with
  | ForInsideTask task_id loop_id
  | ForInsideTaskSleep task_id _ loop_id =>
      Printf "Thread %2d finish sleeping in task %2d loop %2d\n"
        [ArgInt i_thread; ArgInt task_id; ArgInt loop_id]
  | TaskOnly task_id =>
      Printf "Thread %d finish sleeping in task %d\n"
        [ArgInt i_thread; ArgInt task_id]
  end.

Record program : Type := MkProgram {
  sys : system;
  callers : list caller
}.

(** What can happen next to thread [t] of the program. *)
Inductive move : Type :=
| Begin (b : work)                    (* the runtime gives it a body to run *)
| Run (e : Z) (w : option tid)        (* it runs its next statement *)
| Woken.                              (* it is unblocked without a signal *)

Definition print (c : printf_call) (s : system) : system :=
  MkSystem (pool s) (threads s) (held s) (stdout s ++ [c]) (exited s).

Definition caller_step (t : tid) (c : caller) (mv : move) (ps : program)
  : option program :=
  match c, mv with
  | Idle, Begin b =>
      s' ← step t CallGet (sys ps);
      Some (MkProgram s' (<[t:=Getting b]> (callers ps)))
  | Getting b, Run e w =>
      s' ← step t (Stmt e w) (sys ps);
      match threads (sys ps) !! t with
      | Some (InGet L121 value) =>
          (* const int i_thread = <the value returned> *)
          Some (MkProgram s' (<[t:=Sleeping b value]> (callers ps)))
      | _ => Some (MkProgram s' (callers ps))
      end
  | Sleeping b i_thread, Run _ _ =>
      Some (MkProgram (sys ps) (<[t:=Printing b i_thread]> (callers ps)))
  | Printing b i_thread, Run _ _ =>
      Some (MkProgram (print (report b i_thread) (sys ps))
              (<[t:=Releasing b i_thread]> (callers ps)))
  | Releasing b i_thread, Run _ _ =>
      s' ← step t (CallReturn i_thread) (sys ps);
      Some (MkProgram s' (<[t:=Returning b i_thread]> (callers ps)))
  | Returning b i_thread, Run e w =>
      s' ← step t (Stmt e w) (sys ps);
      match threads s' !! t with
      | Some Outside => Some (MkProgram s' (<[t:=Idle]> (callers ps)))
      | _ => Some (MkProgram s' (callers ps))
      end
  | _, Woken =>
      s' ← step t Wakeup (sys ps);
      Some (MkProgram s' (callers ps))
  | _, _ => None
  end.

(** One transition of the program, taken by thread [t]. *)
Definition program_step (t : tid) (mv : move) (ps : program) : option program :=
  match exited (sys ps) with
  | Some _ => None
  | None => c ← callers ps !! t; caller_step t c mv ps
  end.

Fixpoint run (sched : list (tid * move)) (ps : program) : option program :=
  match sched with
  | [] => Some ps
  | (t, mv) :: sched' => ps' ← program_step t mv ps; run sched' ps'
  end.

(** The parallel region opens on a pool that has just been initialised. *)
Definition region (n : nat) (s : system) : program :=
  MkProgram s (replicate n Idle).

(** [main] up to line 258: the pool is initialised with [n_thread = 2] and
    the first line is printed. *)
Definition main_region (n : nat) (e_mutex e_cond : Z) : program :=
  let n_thread := 2 in
  let s := launch n n_thread e_mutex e_cond threadIDpool in
  match exited s with
  | Some _ => region 0 s
  | None => region n (print (Printf "begin, n_thread = %d\n" [ArgInt n_thread]) s)
  end.

(** A system in which the parallel region can open: the pool holds
    [0 .. capacity-1], nobody is inside it and nothing is checked out. *)
Definition fresh (capacity : Z) (n : nat) (s : system) : Prop :=
  ready (pool s) ∧ indexList (pool s) = seqZ 0 capacity ∧
  threads s = replicate n Outside ∧ held s = [] ∧ exited s = None.

(** The identifier a caller has between the return of
    [PARALLEL_GET_THREAD_ID] and the call of [PARALLEL_RETURN_THREAD_ID]. *)
Definition slot (c : caller) : list Z :=
  match c with
  | Sleeping _ i_thread | Printing _ i_thread | Releasing _ i_thread => [i_thread]
  | _ => []
  end.

Definition slots (ps : program) : list Z := concat (slot <$> callers ps).

(** The caller and the pool agree on where the thread is. *)
Definition agrees (c : caller) (f : frame) : Prop :=
  match c, f with
  | (Idle | Sleeping _ _ | Printing _ _ | Releasing _ _), Outside => True
  | Getting _, InGet _ _ => True
  | Returning _ i_thread, InReturn _ i => i = i_thread
  | _, _ => False
  end.

Definition program_invariant (capacity : Z) (ps : program) : Prop :=
  pool_invariant capacity (sys ps) ∧
  Forall2 agrees (callers ps) (threads (sys ps)) ∧
  held (sys ps) ≡ₚ slots ps.



(** * Properties *)

(** ** The fill loop and [initializePool] *)

(** The counter of the fill loop never leaves the range of [int]: the
    increment is only reached below [n_thread]. *)
Lemma fill_counter_in_range (i n_thread : Z) :
  int_range i → int_range n_thread → i < n_thread → int_range (i + 1).
Proof. unfold int_range. lia. Qed.

Lemma fill_seqZ (i n_thread : Z) (l : list Z) :
  fill i n_thread l = l ++ seqZ i (n_thread - i).
Proof.
  funelim (fill i n_thread l).
  - rewrite H. unfold push_back. rewrite <- app_assoc. f_equal.
    rewrite (seqZ_cons i (n_thread - i)) by lia. simpl. do 2 f_equal; lia.
  - rewrite seqZ_nil by lia. by rewrite app_nil_r.
Qed.

Lemma seqZ_sorted (m n : Z) : StronglySorted Z.lt (seqZ m n).
Proof.
  destruct (decide (0 ≤ n)) as [Hn|Hn].
  - revert m. pattern n. apply natlike_ind; [| |exact Hn].
    + intros m. rewrite seqZ_nil by lia. constructor.
    + intros k Hk IH m. rewrite seqZ_cons by lia.
      replace (Z.pred (Z.succ k)) with k by lia. constructor; [apply IH|].
      apply Forall_seqZ. lia.
  - rewrite seqZ_nil by lia. constructor.
Qed.

(** With both primitives succeeding, [initializePool] returns the pool
    whose list counts from [0] up to [n_thread], whatever the pool was. *)
Lemma initializePool_ok (n_thread : Z) (p : ThreadIDPool) :
  initializePool n_thread 0 0 p
  = Normal (MkPool (seqZ 0 n_thread) MutexFree (CondReady [])).
Proof.
  unfold initializePool. cbn. rewrite fill_seqZ. cbn.
  by rewrite Z.sub_0_r.
Qed.

(** C4.  For every positive capacity, [initializePool] leaves a list that
    holds exactly the identifiers [0 .. capacity-1], each once, in
    ascending order. *)
Theorem initializePool_ascending (capacity : Z) (p : ThreadIDPool) :
  0 < capacity →
  ∃ q, initializePool capacity 0 0 p = Normal q
     ∧ indexList q = seqZ 0 capacity
     ∧ length (indexList q) = Z.to_nat capacity
     ∧ (∀ k : nat, Z.of_nat k < capacity → indexList q !! k = Some (Z.of_nat k))
     ∧ (∀ x, x ∈ indexList q ↔ 0 ≤ x < capacity)
     ∧ NoDup (indexList q)
     ∧ StronglySorted Z.lt (indexList q).
Proof.
  intros Hpos. eexists. split; [apply initializePool_ok|]. cbn.
  split_and!.
  - done.
  - apply length_seqZ.
  - intros k Hk. by rewrite lookup_seqZ_lt.
  - intros x. rewrite elem_of_seqZ. lia.
  - apply NoDup_seqZ.
  - apply seqZ_sorted.
Qed.

Lemma initializePool_ascending_witness :
  ∃ q, initializePool 3 0 0 threadIDpool = Normal q
     ∧ indexList q = seqZ 0 3
     ∧ length (indexList q) = Z.to_nat 3
     ∧ (∀ k : nat, Z.of_nat k < 3 → indexList q !! k = Some (Z.of_nat k))
     ∧ (∀ x, x ∈ indexList q ↔ 0 ≤ x < 3)
     ∧ NoDup (indexList q)
     ∧ StronglySorted Z.lt (indexList q).
Proof. apply (initializePool_ascending 3 threadIDpool). lia. Defined.

(** C9.  [initializePool] clears the list before it fills it: whatever
    the list held, lines 96-98 leave [0 .. n-1] on it; the outcome of the
    call does not depend on the pool it is applied to; and initialising
    the result again changes nothing. *)
Theorem initializePool_independent_of_history (n : Z) :
  (∀ l, fill 0 n (clear l) = seqZ 0 n)
  ∧ (∀ e_mutex e_cond p p',
       initializePool n e_mutex e_cond p = initializePool n e_mutex e_cond p')
  ∧ (∀ p, ∃ q, initializePool n 0 0 p = Normal q
             ∧ indexList q = seqZ 0 n
             ∧ initializePool n 0 0 q = Normal q).
Proof.
  split_and!.
  - intros l. rewrite fill_seqZ. cbn. by rewrite Z.sub_0_r.
  - intros e1 e2 p p'. unfold initializePool, MutexInit, CondInit,
      pthread_mutex_init, pthread_cond_init. cbn.
    repeat case_decide; done.
  - intros p. eexists. split; [apply initializePool_ok|].
    split; [done|]. apply initializePool_ok.
Qed.

(** ** Transitions *)

Lemma lookup_insert_frame (ths : list frame) (t t0 : tid) (f f' f0 : frame) :
  ths !! t = Some f →
  <[t:=f']> ths !! t0 = Some f0 →
  (t0 = t ∧ f0 = f') ∨ (t0 ≠ t ∧ ths !! t0 = Some f0).
Proof.
  intros Hf Hl. destruct (decide (t0 = t)) as [->|Hne].
  - rewrite list_lookup_insert_eq in Hl by (by eapply lookup_lt_Some).
    left. split; congruence.
  - rewrite list_lookup_insert_ne in Hl by done. by right.
Qed.

(** Case analysis on a transition: one goal per statement and per way the
    statement can end. *)
Ltac step_cases H :=
  match type of H with
  | step ?t ?a ?s = Some ?s' =>
      destruct s as [[l m c] ths h out ex]; unfold step, thread_step in H;
      cbn in H;
      destruct ex; [discriminate|];
      let f := fresh "f" in
      let Hf := fresh "Hf" in
      destruct (ths !! t) as [f|] eqn:Hf; [|discriminate]; cbn in H;
      destruct f as [|[] ?|[] ?], a as [ | ? | ? ? | ]; try discriminate;
      cbn in H;
      unfold MutexLock, MutexUnlock, CondSignal, CondWait,
        pthread_mutex_lock, pthread_mutex_unlock, pthread_cond_signal,
        pthread_cond_wait_return, pthread_cond_wait_enter, spurious_wakeup,
        front, pop_front, empty, DIE in H;
      repeat (simplify_option_eq || case_match); try discriminate;
      cbn in *
  end.

Ltac other_thread Hl Hf :=
  let Hne := fresh "Hne" in
  destruct (lookup_insert_frame _ _ _ _ _ _ Hf Hl) as [[-> ->]|[Hne Hl']].

Lemma mutual_exclusion_step t a s s' :
  mutual_exclusion s → step t a s = Some s' → mutual_exclusion s'.
Proof.
  intros Hinv H. unfold mutual_exclusion in *. step_cases H.
  all: intros u g Hl Hh.
  all: try (by eapply Hinv).
  all: other_thread Hl Hf; try done.
  all: try (by specialize (Hinv _ _ Hl' Hh)).
  all: try (by specialize (Hinv _ _ Hf eq_refl)).
  all: specialize (Hinv _ _ Hl' Hh); congruence.
Qed.

Lemma front_available_step t a s s' :
  mutual_exclusion s → front_available s →
  step t a s = Some s' → front_available s'.
Proof.
  intros Hmx Hinv H. unfold mutual_exclusion, front_available in *.
  step_cases H.
  all: intros u g Hl.
  all: try (by eapply Hinv).
  all: other_thread Hl Hf; try done.
  all: try (by apply (Hinv _ _ Hl')).
  all: try (by apply (Hinv _ _ Hf)).
  - by apply bool_decide_eq_false in H.
  - destruct l; simplify_eq/=; eauto.
  - destruct g as [|[] ?|[] ?]; try done.
    all: pose proof (Hmx _ _ Hl' eq_refl); pose proof (Hmx _ _ Hf eq_refl).
    all: congruence.
  - destruct g as [|[] ?|[] ?]; try done.
    all: pose proof (Hmx _ _ Hl' eq_refl); pose proof (Hmx _ _ Hf eq_refl).
    all: congruence.
Qed.

(** *** Conservation *)

Lemma remove_first_elem (i : Z) (l : list Z) :
  i ∈ l → l ≡ₚ i :: remove_first i l.
Proof.
  induction l as [|x l IH]; intros Hin; [by apply elem_of_nil in Hin|].
  cbn. case_decide as Hx; [by subst|].
  apply elem_of_cons in Hin as [->|Hin]; [done|].
  rewrite (IH Hin) at 1. apply perm_swap.
Qed.

Lemma remove_first_absent (i : Z) (l : list Z) :
  i ∉ l → remove_first i l = l.
Proof.
  induction l as [|x l IH]; intros Hin; [done|].
  apply not_elem_of_cons in Hin as [Hx Hin]. cbn.
  case_decide; [congruence|]. by rewrite IH.
Qed.

(** Changing the frame of one thread changes its contribution to the
    identifiers in flight and nothing else. *)
Lemma in_flight_insert (ths : list frame) (t : tid) (f f' : frame) :
  ths !! t = Some f →
  ∃ before after,
    concat (in_flight <$> ths) = before ++ in_flight f ++ after ∧
    concat (in_flight <$> <[t:=f']> ths) = before ++ in_flight f' ++ after.
Proof.
  intros Hf.
  exists (concat (in_flight <$> take t ths)),
         (concat (in_flight <$> drop (S t) ths)).
  split.
  - rewrite <- (take_drop_middle ths t f Hf) at 1.
    by rewrite fmap_app, fmap_cons, concat_app.
  - rewrite insert_take_drop by (by eapply lookup_lt_Some).
    by rewrite fmap_app, fmap_cons, concat_app.
Qed.

Lemma conserved_step capacity t a s s' :
  front_available s → conserved capacity s →
  disciplined s a = true →
  step t a s = Some s' → conserved capacity s'.
Proof.
  intros Hfr Hinv Hd H. unfold front_available, conserved, checked_out in *.
  step_cases H.
  all: try done.
  all: match goal with
       | Hf : ?ths !! ?t = Some ?f |- context [ <[?t:=?f']> ?ths ] =>
           destruct (in_flight_insert ths t f f' Hf) as (A & B & E1 & E2);
           rewrite E2; rewrite E1 in Hinv; rewrite <- Hinv; cbn
       end.
  all: try done.
  - rewrite (remove_first_elem i h H) at 2. solve_Permutation.
  - destruct (Hfr _ _ Hf) as [rest Hrest]. injection Hrest as -> ->.
    solve_Permutation.
  - solve_Permutation.
  - solve_Permutation.
Qed.

(** *** A pool with nothing in it *)

Lemma starved_step t a s s' :
  starved s → disciplined s a = true →
  step t a s = Some s' → starved s'.
Proof.
  intros (Hl & Hh & Hinv) Hd H. unfold starved. step_cases H.
  all: try (by apply elem_of_nil in H).
  all: try (specialize (Hinv _ _ Hf); discriminate).
  all: try done.
  all: split_and!; try done.
  all: intros u g Hg; other_thread Hg Hf; try done.
  all: by eapply Hinv.
Qed.

(** ** Schedules *)

Lemma execute_app sched1 sched2 s :
  execute (sched1 ++ sched2) s = s' ← execute sched1 s; execute sched2 s'.
Proof.
  revert s. induction sched1 as [|[t a] sched1 IH]; intros s; [done|].
  cbn. destruct (step t a s); [apply IH|done].
Qed.

(** A property of states that every transition preserves holds after every
    schedule. *)
Lemma execute_invariant (I : system → Prop) :
  (∀ t a s s', I s → step t a s = Some s' → I s') →
  ∀ sched s s', I s → execute sched s = Some s' → I s'.
Proof.
  intros Hstep. induction sched as [|[t a] sched IH]; intros s s' HI Hex.
  - by simplify_eq/=.
  - cbn in Hex. destruct (step t a s) as [s1|] eqn:Hs; [|done].
    eapply IH; [|exact Hex]. by eapply Hstep.
Qed.

(** The same for the transitions of callers that keep the contract. *)
Lemma execute_invariant_disciplined (I : system → Prop) :
  (∀ t a s s', I s → disciplined s a = true → step t a s = Some s' → I s') →
  ∀ sched s s',
    I s → well_behaved sched s = true → execute sched s = Some s' → I s'.
Proof.
  intros Hstep. induction sched as [|[t a] sched IH]; intros s s' HI Hwb Hex.
  - by simplify_eq/=.
  - cbn in Hex, Hwb. apply andb_true_iff in Hwb as [Hd Hwb].
    destruct (step t a s) as [s1|] eqn:Hs; [|done].
    eapply IH; [|exact Hwb|exact Hex]. by eapply Hstep.
Qed.

(** What holds once the pool is initialised and before any thread has
    moved. *)
Lemma start_mutual_exclusion n p : mutual_exclusion (start n p).
Proof.
  intros t f Hf. apply lookup_replicate in Hf as [-> _]. done.
Qed.

Lemma start_front_available n p : front_available (start n p).
Proof.
  intros t f Hf. apply lookup_replicate in Hf as [-> _]. done.
Qed.

Lemma in_flight_replicate n : concat (in_flight <$> replicate n Outside) = [].
Proof. induction n as [|n IH]; [done|]. cbn. exact IH. Qed.

Lemma start_conserved n capacity p :
  indexList p = seqZ 0 capacity → conserved capacity (start n p).
Proof.
  intros Hl. unfold conserved, checked_out. cbn.
  by rewrite in_flight_replicate, app_nil_r, Hl.
Qed.

Lemma launch_start n capacity p0 :
  launch n capacity 0 0 p0
  = start n (MkPool (seqZ 0 capacity) MutexFree (CondReady [])).
Proof. unfold launch. by rewrite initializePool_ok. Qed.

Lemma pool_invariant_step capacity t a s s' :
  pool_invariant capacity s → disciplined s a = true →
  step t a s = Some s' → pool_invariant capacity s'.
Proof.
  intros (Hmx & Hfr & Hco) Hd H. split_and!.
  - by eapply mutual_exclusion_step.
  - by eapply front_available_step.
  - by eapply conserved_step.
Qed.

Lemma pool_invariant_launch n capacity p0 sched s :
  well_behaved sched (launch n capacity 0 0 p0) = true →
  execute sched (launch n capacity 0 0 p0) = Some s →
  pool_invariant capacity s.
Proof.
  intros Hwb Hex.
  eapply (execute_invariant_disciplined (pool_invariant capacity));
    [apply pool_invariant_step| |exact Hwb|exact Hex].
  rewrite launch_start. split_and!.
  - apply start_mutual_exclusion.
  - apply start_front_available.
  - by apply start_conserved.
Qed.


(** ** Calls that run undisturbed *)

Lemma step_thread (t : tid) (a : action) (s : system) (f : frame) :
  exited s = None → threads s !! t = Some f →
  step t a s = thread_step t f a s.
Proof. intros Hex Hf. unfold step. by rewrite Hex, Hf. Qed.

(** Runs the next transition of a thread whose frame is known. *)
Ltac run_step Hlen :=
  rewrite ?list_insert_insert_eq;
  erewrite step_thread;
    [ | reflexivity
      | first [ cbn [threads]; apply list_lookup_insert_eq; exact Hlen
              | eassumption ] ];
  cbn -[step];
  unfold MutexLock, MutexUnlock, pthread_mutex_lock, pthread_mutex_unlock,
    front, pop_front, empty;
  cbn -[step];
  repeat (case_decide; try (exfalso; lia)); cbn -[step].

Lemma get_index_alone_front (t : tid) (s : system) (v : Z) (rest : list Z) :
  threads s !! t = Some Outside →
  exited s = None →
  lock (pool s) = MutexFree →
  indexList (pool s) = v :: rest →
  get_index_alone t s
  = Some (v, MkSystem (with_indexList rest (pool s)) (threads s)
                      (v :: held s) (stdout s) None).
Proof.
  destruct s as [[l m c] ths h out ex]. cbn. intros Hf -> -> ->.
  assert (Hlen : (t < length ths)%nat) by (by eapply lookup_lt_Some).
  unfold get_index_alone. cbn -[step].
  do 6 run_step Hlen.
  rewrite ?list_insert_insert_eq.
  rewrite list_lookup_insert_eq by exact Hlen.
  run_step Hlen.
  rewrite list_insert_insert_eq. by rewrite list_insert_id.
Qed.

Lemma return_index_alone_back (t : tid) (i : Z) (w : option tid) (s : system)
    (c : Cond_t) :
  threads s !! t = Some Outside →
  exited s = None →
  lock (pool s) = MutexFree →
  pthread_cond_signal 0 w (pool_not_empty_condition (pool s)) = Some c →
  return_index_alone t i w s
  = Some (MkSystem (MkPool (indexList (pool s) ++ [i]) MutexFree c) (threads s)
                   (remove_first i (held s)) (stdout s) None).
Proof.
  destruct s as [[l m c0] ths h out ex]. cbn. intros Hf -> -> Hsig.
  assert (Hlen : (t < length ths)%nat) by (by eapply lookup_lt_Some).
  unfold return_index_alone. cbn -[step].
  do 3 run_step Hlen.
  rewrite ?list_insert_insert_eq.
  erewrite step_thread;
    [ | reflexivity | cbn [threads]; apply list_lookup_insert_eq; exact Hlen ].
  cbn -[step]. unfold CondSignal. cbn -[step]. rewrite Hsig. cbn -[step].
  case_decide; [exfalso; lia|]. cbn -[step].
  run_step Hlen.
  rewrite list_insert_insert_eq. by rewrite list_insert_id.
Qed.

(** [k] calls in a row take the first [k] identifiers off the list, in the
    order of the list. *)
Lemma get_indices_alone_take (t : tid) (k : nat) (s : system) :
  threads s !! t = Some Outside →
  exited s = None →
  lock (pool s) = MutexFree →
  (k ≤ length (indexList (pool s)))%nat →
  ∃ h, get_indices_alone t k s
       = Some (take k (indexList (pool s)),
               MkSystem (with_indexList (drop k (indexList (pool s))) (pool s))
                        (threads s) h (stdout s) None).
Proof.
  revert s. induction k as [|k IH]; intros s Hf Hex Hlock Hk.
  - exists (held s). destruct s as [[l m c] ths h out ex]. cbn in *. by subst.
  - destruct (indexList (pool s)) as [|v rest] eqn:Hl; [cbn in Hk; lia|].
    cbn [get_indices_alone].
    rewrite (get_index_alone_front t s v rest Hf Hex Hlock Hl). cbn.
    edestruct (IH (MkSystem (with_indexList rest (pool s)) (threads s)
                     (v :: held s) (stdout s) None)) as [h Hh];
      cbn; try done; [cbn in Hk; lia|].
    exists h. rewrite Hh. done.
Qed.

(** Releases in a row put the identifiers at the back of the list, in the
    order of the calls. *)
Lemma return_indices_alone_append (t : tid) (rs : list Z) (s : system) :
  threads s !! t = Some Outside →
  exited s = None →
  lock (pool s) = MutexFree →
  pool_not_empty_condition (pool s) = CondReady [] →
  ∃ h, return_indices_alone t rs s
       = Some (MkSystem (MkPool (indexList (pool s) ++ rs) MutexFree (CondReady []))
                        (threads s) h (stdout s) None).
Proof.
  revert s. induction rs as [|r rs IH]; intros s Hf Hex Hlock Hc.
  - exists (held s). destruct s as [[l m c] ths h out ex]. cbn in *. subst.
    by rewrite app_nil_r.
  - cbn [return_indices_alone].
    rewrite (return_index_alone_back t r None s (CondReady []) Hf Hex Hlock)
      by (by rewrite Hc).
    cbn. destruct (IH (MkSystem (MkPool (indexList (pool s) ++ [r]) MutexFree
                                   (CondReady []))
                         (threads s) (remove_first r (held s)) (stdout s) None))
      as [h Hh]; try done.
    exists h. rewrite Hh. cbn. by rewrite <- app_assoc.
Qed.

Lemma quiescent_thread (t : tid) (s : system) :
  quiescent s → (t < length (threads s))%nat → threads s !! t = Some Outside.
Proof.
  intros (_ & _ & _ & Hall) Hlen.
  destruct (threads s !! t) as [f|] eqn:Hf.
  - f_equal. exact (Forall_lookup_1 _ _ _ _ Hall Hf).
  - apply lookup_ge_None in Hf. lia.
Qed.

Lemma release_then_acquire_take (t : tid) (rs : list Z) (s : system) :
  quiescent s → (t < length (threads s))%nat →
  release_then_acquire t rs s
  = Some (take (length rs) (indexList (pool s) ++ rs)).
Proof.
  intros Hq Hlen. pose proof (quiescent_thread t s Hq Hlen) as Hf.
  destruct Hq as (Hex & Hlock & Hc & _).
  destruct (return_indices_alone_append t rs s Hf Hex Hlock Hc) as [h Hh].
  unfold release_then_acquire. rewrite Hh. cbn.
  edestruct (get_indices_alone_take t (length rs)) as [h' Hh'];
    [| | | |rewrite Hh']; cbn; try done.
  rewrite length_app. lia.
Qed.

(** * The claims *)

(** C1.  Conservation.  Start from an initialised pool of any capacity and
    let any number of threads call [getIndexBlocking] and [returnIndex] in
    any interleaving, each [returnIndex] passing an identifier that was
    returned by [getIndexBlocking] and not passed back since.  In every
    state that is reached, the available list together with the
    checked-out identifiers is a rearrangement of [0 .. capacity-1], and no
    identifier occurs twice. *)
Theorem conservation (n : nat) (capacity : Z) (p0 : ThreadIDPool)
    (sched : list (tid * action)) (s : system) :
  well_behaved sched (launch n capacity 0 0 p0) = true →
  execute sched (launch n capacity 0 0 p0) = Some s →
  indexList (pool s) ++ checked_out s ≡ₚ seqZ 0 capacity
  ∧ NoDup (indexList (pool s) ++ checked_out s)
  ∧ (∀ x, x ∈ indexList (pool s) ++ checked_out s ↔ 0 ≤ x < capacity).
Proof.
  intros Hwb Hex.
  destruct (pool_invariant_launch n capacity p0 sched s Hwb Hex)
    as (_ & _ & Hco).
  unfold conserved in Hco. split_and!.
  - exact Hco.
  - rewrite Hco. apply NoDup_seqZ.
  - intros x. rewrite Hco, elem_of_seqZ. lia.
Qed.

Lemma conservation_witness :
  let sched :=
    [ (0%nat, CallGet); (0%nat, go); (0%nat, go); (1%nat, CallGet);
      (0%nat, go); (0%nat, go); (0%nat, go); (1%nat, go); (0%nat, go);
      (1%nat, go); (0%nat, CallReturn 0); (1%nat, go); (1%nat, go);
      (1%nat, go); (0%nat, go); (0%nat, go) ] in
  let s :=
    MkSystem (MkPool [0] (MutexHeld 0%nat) (CondReady []))
      [InReturn L128 0; InGet L121 1] [] [] None in
  execute sched (launch 2 2 0 0 threadIDpool) = Some s
  ∧ checked_out s = [1]
  ∧ indexList (pool s) ++ checked_out s ≡ₚ seqZ 0 2.
Proof.
  intros sched s. split; [vm_compute; reflexivity|].
  split; [vm_compute; reflexivity|].
  apply (conservation 2 2 threadIDpool sched s); vm_compute; reflexivity.
Defined.

Lemma take_seqZ (k n : Z) :
  0 ≤ k ≤ n → take (Z.to_nat k) (seqZ 0 n) = seqZ 0 k.
Proof.
  intros Hk. replace n with (k + (n - k)) by lia.
  rewrite seqZ_app by lia. apply take_app_length'. by rewrite length_seqZ.
Qed.

Lemma drop_seqZ (k n : Z) :
  0 ≤ k ≤ n → drop (Z.to_nat k) (seqZ 0 n) = seqZ k (n - k).
Proof.
  intros Hk. replace n with (k + (n - k)) at 1 by lia.
  rewrite seqZ_app by lia. apply drop_app_length'. by rewrite length_seqZ.
Qed.

(** C2.  With the mutex free and no primitive failing, a call of
    [getIndexBlocking] on a non-empty list returns the front of the list
    and leaves the rest, one element shorter.  Right after
    [initializePool capacity], [k] calls in a row return [0, 1, .., k-1];
    three calls after [initializePool 3] return [0], [1], [2]. *)
Theorem getIndexBlocking_takes_front :
  (∀ (t : tid) (s : system) (v : Z) (rest : list Z),
     threads s !! t = Some Outside →
     exited s = None →
     lock (pool s) = MutexFree →
     indexList (pool s) = v :: rest →
     ∃ s', get_index_alone t s = Some (v, s')
         ∧ indexList (pool s') = rest
         ∧ S (length (indexList (pool s'))) = length (indexList (pool s))
         ∧ held s' = v :: held s
         ∧ exited s' = None)
  ∧ (∀ (n : nat) (capacity k : Z) (t : tid) (p0 : ThreadIDPool),
       (t < n)%nat → 0 ≤ k ≤ capacity →
       ∃ s', get_indices_alone t (Z.to_nat k) (launch n capacity 0 0 p0)
             = Some (seqZ 0 k, s')
           ∧ indexList (pool s') = seqZ k (capacity - k))
  ∧ fst <$> get_indices_alone 0 3 (launch 1 3 0 0 threadIDpool) = Some [0; 1; 2].
Proof.
  split_and!.
  - intros t s v rest Hf Hex Hlock Hl. eexists.
    split; [by apply get_index_alone_front|]. cbn. by rewrite Hl.
  - intros n capacity k t p0 Ht Hk. rewrite launch_start.
    edestruct (get_indices_alone_take t (Z.to_nat k)
                 (start n (MkPool (seqZ 0 capacity) MutexFree (CondReady []))))
      as [h Hh]; cbn; try done.
    + by apply lookup_replicate_2.
    + rewrite length_seqZ. lia.
    + cbn in Hh. rewrite Hh. rewrite take_seqZ, drop_seqZ by done.
      eexists. split; [reflexivity|]. done.
  - by vm_compute.
Qed.

Lemma getIndexBlocking_takes_front_witness :
  let s := MkSystem (MkPool [4; 2] MutexFree (CondReady [])) [Outside] [] [] None in
  (∃ s', get_index_alone 0 s = Some (4, s')
       ∧ indexList (pool s') = [2]
       ∧ S (length (indexList (pool s'))) = length (indexList (pool s))
       ∧ held s' = 4 :: held s
       ∧ exited s' = None)
  ∧ (∃ s', get_indices_alone 0 (Z.to_nat 2) (launch 1 5 0 0 threadIDpool)
           = Some (seqZ 0 2, s')
         ∧ indexList (pool s') = seqZ 2 (5 - 2)).
Proof.
  intros s. split.
  - apply (proj1 getIndexBlocking_takes_front 0%nat s 4 [2]); reflexivity.
  - apply (proj1 (proj2 getIndexBlocking_takes_front) 1%nat 5 2 0%nat threadIDpool);
      lia.
Defined.

(** C3, as stated, at a pool of two: thread 0 has taken identifier [0], the
    list holds [1], no call is pending.  Thread 0 releases [0] and calls
    [getIndexBlocking] once: it gets [1], not the identifier it released. *)
Lemma release_then_acquire_nonempty_list :
  let s := MkSystem (MkPool [1] MutexFree (CondReady [])) [Outside] [0] [] None in
  get_index_alone 0 (launch 1 2 0 0 threadIDpool) = Some (0, s)
  ∧ quiescent s
  ∧ well_behaved [(0%nat, CallReturn 0)] s = true
  ∧ release_then_acquire 0 [0] s = Some [1]
  ∧ release_then_acquire 0 [0] s ≠ Some [0].
Proof.
  intros s. split_and!.
  - by vm_compute.
  - unfold quiescent. cbn. split_and!; try done. by repeat constructor.
  - by vm_compute.
  - by vm_compute.
  - by vm_compute.
Qed.

(** C3, amended.  When no call is pending and the available list is empty,
    releases [r1, .., rk] followed by [k] calls of [getIndexBlocking] return
    [r1, .., rk] in that order.  Whatever the list holds, the [k] calls
    return the first [k] elements of the list extended by [r1, .., rk].
    After [initializePool 1], a call returns [0], and after that [0] is
    released the next call returns [0] again. *)
Theorem fifo_of_availability :
  (∀ (t : tid) (rs : list Z) (s : system),
     quiescent s → (t < length (threads s))%nat →
     indexList (pool s) = [] →
     release_then_acquire t rs s = Some rs)
  ∧ (∀ (t : tid) (rs : list Z) (s : system),
       quiescent s → (t < length (threads s))%nat →
       release_then_acquire t rs s
       = Some (take (length rs) (indexList (pool s) ++ rs)))
  ∧ ('(v1, s1) ← get_index_alone 0 (launch 1 1 0 0 threadIDpool);
     s2 ← return_index_alone 0 v1 None s1;
     '(v2, _) ← get_index_alone 0 s2;
     Some (v1, v2)) = Some (0, 0).
Proof.
  split_and!.
  - intros t rs s Hq Ht Hl.
    rewrite release_then_acquire_take, Hl by done. cbn.
    by rewrite firstn_all.
  - intros t rs s Hq Ht. by apply release_then_acquire_take.
  - by vm_compute.
Qed.

Lemma fifo_of_availability_witness :
  let s := MkSystem (MkPool [] MutexFree (CondReady [])) [Outside] [2; 0; 1] [] None in
  let s' := MkSystem (MkPool [1] MutexFree (CondReady [])) [Outside] [0] [] None in
  release_then_acquire 0 [2; 0; 1] s = Some [2; 0; 1]
  ∧ release_then_acquire 0 [0] s' = Some (take 1 ([1] ++ [0])).
Proof.
  intros s s'. split.
  - apply (proj1 fifo_of_availability 0%nat [2; 0; 1] s).
    + unfold quiescent. simpl. repeat split. repeat constructor.
    + simpl. lia.
    + reflexivity.
  - apply (proj1 (proj2 fifo_of_availability) 0%nat [0] s').
    + unfold quiescent. simpl. repeat split. repeat constructor.
    + simpl. lia.
Defined.

(** C5.  Let any number of threads use a pool in any interleaving, with
    any calls, spurious wakeups and failing primitives.  A thread that has
    left the wait loop of [getIndexBlocking] finds the list non-empty; the
    value it has read is the front of the list until it removes it; the
    removal takes exactly that value off the list; a thread that finds the
    list empty at the loop test goes on to wait; and a thread that comes
    back from [CondWait], signalled or not, is at the loop test again. *)
Theorem getIndexBlocking_waits_while_empty (n : nat) (p : ThreadIDPool)
    (sched : list (tid * action)) (s : system) (t : tid) (value : Z) :
  execute sched (start n p) = Some s →
  (threads s !! t = Some (InGet L117 value) → indexList (pool s) ≠ [])
  ∧ (threads s !! t = Some (InGet L118 value) →
       ∃ rest, indexList (pool s) = value :: rest)
  ∧ (∀ a s', threads s !! t = Some (InGet L118 value) →
       step t a s = Some s' →
       threads s' !! t = Some (InGet L120 value) →
       indexList (pool s) = value :: indexList (pool s'))
  ∧ (∀ e w s', threads s !! t = Some (InGet L114 value) →
       indexList (pool s) = [] →
       step t (Stmt e w) s = Some s' →
       threads s' !! t = Some (InGet L115 value)
       ∧ indexList (pool s') = [])
  ∧ (∀ e w s', threads s !! t = Some (InGet L115_waiting value) →
       step t (Stmt e w) s = Some s' →
       exited s' = None →
       threads s' !! t = Some (InGet L114 value)).
Proof.
  intros Hex.
  assert (mutual_exclusion s ∧ front_available s) as [Hmx Hfr].
  { eapply (execute_invariant (λ s, mutual_exclusion s ∧ front_available s));
      [|split; [apply start_mutual_exclusion|apply start_front_available]
       |exact Hex].
    intros t' a s1 s2 [Hmx Hfr] Hstep. split.
    - by eapply mutual_exclusion_step.
    - by eapply front_available_step. }
  split_and!.
  - intros Hf. exact (Hfr _ _ Hf).
  - intros Hf. exact (Hfr _ _ Hf).
  - intros a s' Hf Hstep Hf'. destruct (Hfr _ _ Hf) as [rest Hrest].
    rewrite Hrest. f_equal.
    assert (Hlen : (t < length (threads s))%nat) by (by eapply lookup_lt_Some).
    destruct s as [[l m c] ths h out ex]. cbn in *. subst l.
    unfold step in Hstep. cbn in Hstep. destruct ex; [done|].
    rewrite Hf in Hstep. cbn in Hstep.
    destruct a; cbn in Hstep; simplify_eq/=; try done.
    unfold spurious_wakeup in Hstep.
    repeat (case_match || simplify_option_eq); congruence.
  - intros e w s' Hf Hl Hstep.
    assert (Hlen : (t < length (threads s))%nat) by (by eapply lookup_lt_Some).
    destruct s as [[l m c] ths h out ex]. cbn in *. subst l.
    unfold step in Hstep. cbn in Hstep. destruct ex; [done|].
    rewrite Hf in Hstep. cbn in Hstep. simplify_eq/=.
    split; [|done]. by apply list_lookup_insert_eq.
  - intros e w s' Hf Hstep Hlive.
    assert (Hlen : (t < length (threads s))%nat) by (by eapply lookup_lt_Some).
    destruct s as [[l m c] ths h out ex]. cbn in *.
    unfold step in Hstep. cbn in Hstep. destruct ex; [done|].
    rewrite Hf in Hstep. cbn in Hstep.
    destruct (CondWait t e c m) as [[m'|st printed]|]; simplify_eq/=.
    by apply list_lookup_insert_eq.
Qed.

Lemma getIndexBlocking_waits_while_empty_witness :
  let sched := [ (0%nat, CallGet); (0%nat, go); (0%nat, go); (0%nat, go) ] in
  let s := MkSystem (MkPool [5; 3] (MutexHeld 0) (CondReady []))
             [InGet L118 5; Outside] [] [] None in
  ∃ rest, indexList (pool s) = 5 :: rest.
Proof.
  intros sched s.
  apply (getIndexBlocking_waits_while_empty 2
           (MkPool [5; 3] MutexFree (CondReady [])) sched s 0%nat 5);
    reflexivity.
Defined.

(** C7.  A nonzero code from any of the pthread primitives ends the
    process: each wrapper prints the place and the code and calls
    [exit(1)] instead of returning; [initializePool] and [destroyPool] end
    the same way; a thread whose statement gets a nonzero code takes the
    whole system into the exited state, where nothing runs any more. *)
Theorem nonzero_code_is_fatal (e : Z) :
  e ≠ 0 →
  let died (line : Z) (fmt : string) : ∀ A, outcome A := λ A,
    Exit 1 [ Printf "Error detected at line %d in %s\n" [ArgInt line; ArgFILE];
             Printf fmt [ArgInt e] ] in
  (∀ m, MutexInit e m = died 25 "pthread_mutex_init returned %d" _)
  ∧ (∀ m, MutexDestroy e m = died 33 "pthread_mutex_destroy returned %d" _)
  ∧ (∀ t m, MutexLock t e m = Some (died 41 "pthread_mutex_lock returned %d" _))
  ∧ (∀ t m, MutexUnlock t e m = Some (died 49 "pthread_mutex_unlock returned %d" _))
  ∧ (∀ c, CondInit e c = died 57 "pthread_cond_init returned %d" _)
  ∧ (∀ c, CondDestroy e c = died 65 "pthread_cond_destroy returned %d" _)
  ∧ (∀ w c, CondSignal e w c = Some (died 73 "pthread_cond_signal returned %d" _))
  ∧ (∀ t c m, CondWait t e c m = Some (died 81 "pthread_cond_wait returned %d" _))
  ∧ (∀ n e' p, initializePool n e e' p = died 25 "pthread_mutex_init returned %d" _)
  ∧ (∀ n p, initializePool n 0 e p = died 57 "pthread_cond_init returned %d" _)
  ∧ (∀ e' p, destroyPool e e' p = died 33 "pthread_mutex_destroy returned %d" _)
  ∧ (∀ p, destroyPool 0 e p = died 65 "pthread_cond_destroy returned %d" _)
  ∧ (∀ t w s s' f,
       threads s !! t = Some f → checks_primitive f = true →
       step t (Stmt e w) s = Some s' →
       exited s' = Some 1
       ∧ (∃ line fmt, stdout s' = stdout s ++
            [ Printf "Error detected at line %d in %s\n" [ArgInt line; ArgFILE];
              Printf fmt [ArgInt e] ])
       ∧ pool s' = pool s
       ∧ ∀ t' a', step t' a' s' = None).
Proof.
  intros He died. subst died. cbn beta.
  split_and!.
  - intros m. unfold MutexInit. by rewrite decide_True.
  - intros m. unfold MutexDestroy. by rewrite decide_True.
  - intros t m. unfold MutexLock, pthread_mutex_lock.
    rewrite decide_False by done. cbn. by rewrite decide_True.
  - intros t m. unfold MutexUnlock, pthread_mutex_unlock.
    rewrite decide_False by done. cbn. by rewrite decide_True.
  - intros c. unfold CondInit. by rewrite decide_True.
  - intros c. unfold CondDestroy. by rewrite decide_True.
  - intros w c. unfold CondSignal, pthread_cond_signal.
    rewrite decide_False by done. cbn. by rewrite decide_True.
  - intros t c m. unfold CondWait, pthread_cond_wait_return.
    rewrite decide_False by done. cbn. by rewrite decide_True.
  - intros n e' p. unfold initializePool, MutexInit. cbn.
    by rewrite decide_True.
  - intros n p. unfold initializePool, MutexInit, CondInit. cbn.
    repeat case_decide; done.
  - intros e' p. unfold destroyPool, MutexDestroy. cbn. by rewrite decide_True.
  - intros p. unfold destroyPool, MutexDestroy, CondDestroy. cbn.
    repeat case_decide; done.
  - intros t w s s' f Hf Hchk Hstep.
    destruct s as [[l m c] ths h out ex]. cbn in *.
    unfold step in Hstep. cbn in Hstep. destruct ex; [done|].
    rewrite Hf in Hstep. cbn in Hstep.
    destruct f as [|[] ?|[] ?]; try discriminate Hchk; cbn in Hstep.
    all: unfold MutexLock, MutexUnlock, CondSignal, CondWait,
           pthread_mutex_lock, pthread_mutex_unlock, pthread_cond_signal,
           pthread_cond_wait_return in Hstep.
    all: rewrite decide_False in Hstep by done; cbn in Hstep.
    all: rewrite decide_True in Hstep by done; cbn in Hstep.
    all: injection Hstep as <-; cbn.
    all: split_and!; [done|by eexists _, _|done|done].
Qed.

Lemma nonzero_code_is_fatal_witness :
  let s := MkSystem (MkPool [0; 1] MutexFree (CondReady []))
             [InGet L113 (-1); Outside] [] [] None in
  let s' := MkSystem (MkPool [0; 1] MutexFree (CondReady []))
              [InGet L113 (-1); Outside] []
              [ Printf "Error detected at line %d in %s\n" [ArgInt 41; ArgFILE];
                Printf "pthread_mutex_lock returned %d" [ArgInt 11] ]
              (Some 1) in
  MutexInit 11 MutexInvalid
  = Exit 1 [ Printf "Error detected at line %d in %s\n" [ArgInt 25; ArgFILE];
             Printf "pthread_mutex_init returned %d" [ArgInt 11] ]
  ∧ step 0 (Stmt 11 None) s = Some s'
  ∧ exited s' = Some 1
  ∧ ∀ t' a', step t' a' s' = None.
Proof.
  intros s s'.
  assert (H11 : 11 ≠ 0) by lia.
  split; [apply (nonzero_code_is_fatal 11 H11)|].
  split; [vm_compute; reflexivity|].
  split; [reflexivity|].
  apply (nonzero_code_is_fatal 11 H11) with (t := 0%nat) (w := @None tid)
    (s := s) (f := InGet L113 (-1)); reflexivity.
Defined.

Lemma start_starved n p : indexList p = [] → starved (start n p).
Proof.
  intros Hl. split_and!; [done|done|].
  intros t f Hf. apply lookup_replicate in Hf as [-> _]. done.
Qed.

(** C8.  For [n ≤ 0] the fill loop does not run: [initializePool n]
    returns normally, prints nothing and leaves the list empty.  From then
    on, as long as the callers keep the contract, the list stays empty and
    no thread gets past the wait loop of [getIndexBlocking]; a thread that
    calls it alone ends up among the waiters of the condition and cannot
    take another step. *)
Theorem initializePool_nonpositive (n : Z) :
  n ≤ 0 →
  (∀ p, initializePool n 0 0 p = Normal (MkPool [] MutexFree (CondReady [])))
  ∧ (∀ m p0 sched s,
       well_behaved sched (launch m n 0 0 p0) = true →
       execute sched (launch m n 0 0 p0) = Some s →
       indexList (pool s) = []
       ∧ ∀ t f, threads s !! t = Some f → before_front f = true)
  ∧ (∀ (m : nat) p0 (t : tid), (t < m)%nat →
       ∃ s, execute ((t,.) <$> [CallGet; go; go; go]) (launch m n 0 0 p0) = Some s
          ∧ threads s !! t = Some (InGet L115_waiting (-1))
          ∧ pool_not_empty_condition (pool s) = CondReady [t]
          ∧ (∀ w, step t (Stmt 0 w) s = None)
          ∧ get_index_alone t (launch m n 0 0 p0) = None).
Proof.
  intros Hn.
  assert (Hinit : ∀ p, initializePool n 0 0 p
                       = Normal (MkPool [] MutexFree (CondReady []))).
  { intros p. by rewrite initializePool_ok, seqZ_nil. }
  assert (Hlaunch : ∀ m p0, launch m n 0 0 p0
                            = start m (MkPool [] MutexFree (CondReady []))).
  { intros m p0. unfold launch. by rewrite Hinit. }
  split_and!.
  - exact Hinit.
  - intros m p0 sched s Hwb Hex. rewrite Hlaunch in Hwb, Hex.
    destruct (execute_invariant_disciplined starved starved_step sched _ s
                (start_starved m (MkPool [] MutexFree (CondReady [])) eq_refl)
                Hwb Hex) as (Hl & _ & Hth).
    by split.
  - intros m p0 t Ht. rewrite Hlaunch. unfold start.
    assert (Hf : replicate m Outside !! t = Some Outside)
      by (by apply lookup_replicate_2).
    assert (Hlen : (t < length (replicate m Outside))%nat)
      by (by rewrite length_replicate).
    assert (Hrun : execute ((t,.) <$> [CallGet; go; go; go])
                     (MkSystem (MkPool [] MutexFree (CondReady []))
                        (replicate m Outside) [] [] None)
                   = Some (MkSystem (MkPool [] MutexFree (CondReady [t]))
                             (<[t:=InGet L115_waiting (-1)]> (replicate m Outside))
                             [] [] None)).
    { cbn -[step]. do 3 run_step Hlen.
      rewrite ?list_insert_insert_eq.
      erewrite step_thread;
        [|reflexivity|cbn [threads]; apply list_lookup_insert_eq; exact Hlen].
      cbn -[step]. unfold pthread_cond_wait_enter. cbn.
      rewrite decide_True by done. cbn.
      by rewrite list_insert_insert_eq. }
    eexists. split; [exact Hrun|].
    assert (Hblocked : ∀ w,
              step t (Stmt 0 w)
                (MkSystem (MkPool [] MutexFree (CondReady [t]))
                   (<[t:=InGet L115_waiting (-1)]> (replicate m Outside))
                   [] [] None) = None).
    { intros w. erewrite step_thread;
        [|reflexivity|cbn [threads]; apply list_lookup_insert_eq; exact Hlen].
      cbn. unfold CondWait, pthread_cond_wait_return. cbn.
      destruct (decide (0 = 0)); [|done].
      destruct (decide (t ∈ [t])) as [|Hnot]; [done|].
      exfalso. apply Hnot. constructor. }
    split_and!.
    + cbn. by apply list_lookup_insert_eq.
    + done.
    + exact Hblocked.
    + unfold get_index_alone.
      pose proof (execute_app ((t,.) <$> [CallGet; go; go; go])
                    ((t,.) <$> [go; go])
                    (MkSystem (MkPool [] MutexFree (CondReady []))
                       (replicate m Outside) [] [] None)) as Happ.
      cbn [fmap list_fmap app] in Happ, Hrun. cbn [fmap list_fmap].
      rewrite Happ, Hrun. cbn -[step]. unfold go.
      by rewrite Hblocked.
Qed.

Lemma initializePool_nonpositive_witness :
  let sched := [ (0%nat, CallGet); (0%nat, go); (0%nat, go); (0%nat, go);
                 (0%nat, Wakeup); (0%nat, go); (0%nat, go); (0%nat, go) ] in
  let s := MkSystem (MkPool [] MutexFree (CondReady [0%nat]))
             [InGet L115_waiting (-1)] [] [] None in
  initializePool (-4) 0 0 threadIDpool
  = Normal (MkPool [] MutexFree (CondReady []))
  ∧ execute sched (launch 1 (-4) 0 0 threadIDpool) = Some s
  ∧ indexList (pool s) = []
  ∧ ∀ t f, threads s !! t = Some f → before_front f = true.
Proof.
  intros sched s.
  assert (H4 : -4 ≤ 0) by lia.
  split; [apply (initializePool_nonpositive (-4) H4)|].
  split; [vm_compute; reflexivity|].
  apply (initializePool_nonpositive (-4) H4) with (m := 1%nat)
    (p0 := threadIDpool) (sched := sched); vm_compute; reflexivity.
Defined.

(** C6, as stated, at a pool of capacity two on which nothing is checked
    out: [returnIndex 7], out of range, and [returnIndex 0], never taken,
    both return normally, print nothing and leave the identifier on the
    list. *)
Lemma returnIndex_unchecked :
  let s := launch 1 2 0 0 threadIDpool in
  let s7 := MkSystem (MkPool [0; 1; 7] MutexFree (CondReady [])) [Outside] [] [] None in
  let s0 := MkSystem (MkPool [0; 1; 0] MutexFree (CondReady [])) [Outside] [] [] None in
  checked_out s = []
  ∧ ¬ (0 ≤ 7 < 2)
  ∧ return_index_alone 0 7 None s = Some s7 ∧ ¬ flagged s s7
  ∧ return_index_alone 0 0 None s = Some s0 ∧ ¬ flagged s s0.
Proof.
  intros s s7 s0. split_and!.
  - by vm_compute.
  - lia.
  - by vm_compute.
  - intros [H|H]; apply H; by vm_compute.
  - by vm_compute.
  - intros [H|H]; apply H; by vm_compute.
Qed.

(** C6, amended.  [returnIndex] does not check its argument.  In any state
    reached by callers that kept the contract so far, with the mutex free
    and no primitive failing, a call with an identifier that is out of
    range or not checked out returns normally and prints nothing; the
    identifier is appended to the list, and from then on the list and the
    checked-out identifiers no longer make up [0 .. capacity-1]. *)
Theorem returnIndex_has_no_guard (n : nat) (capacity : Z) (p0 : ThreadIDPool)
    (sched : list (tid * action)) (s : system)
    (t : tid) (id : Z) (w : option tid) (c : Cond_t) :
  well_behaved sched (launch n capacity 0 0 p0) = true →
  execute sched (launch n capacity 0 0 p0) = Some s →
  threads s !! t = Some Outside →
  exited s = None →
  lock (pool s) = MutexFree →
  pthread_cond_signal 0 w (pool_not_empty_condition (pool s)) = Some c →
  ¬ (0 ≤ id < capacity) ∨ id ∉ checked_out s →
  ∃ s', return_index_alone t id w s = Some s'
      ∧ ¬ flagged s s'
      ∧ indexList (pool s') = indexList (pool s) ++ [id]
      ∧ ¬ conserved capacity s'.
Proof.
  intros Hwb Hex Hf Hexit Hlock Hsig Hbad.
  destruct (pool_invariant_launch n capacity p0 sched s Hwb Hex)
    as (_ & _ & Hco).
  eexists. split; [by eapply return_index_alone_back|]. cbn.
  split_and!.
  - intros [H|H]; by apply H.
  - done.
  - assert (Hheld : id ∉ held s).
    { intros Hin. destruct Hbad as [Hrange|Hout].
      - apply Hrange.
        assert (Hel : id ∈ indexList (pool s) ++ checked_out s).
        { unfold checked_out. rewrite !elem_of_app. auto. }
        rewrite Hco in Hel. apply elem_of_seqZ in Hel. lia.
      - apply Hout. unfold checked_out. rewrite elem_of_app. auto. }
    unfold conserved, checked_out in *. cbn.
    rewrite (remove_first_absent id (held s) Hheld).
    intros Hco'. apply Permutation_length in Hco, Hco'.
    rewrite !length_app in Hco, Hco'. cbn in Hco'.
    rewrite !length_app in Hco'. lia.
Qed.

Lemma returnIndex_has_no_guard_witness :
  let s := MkSystem (MkPool [1] MutexFree (CondReady [])) [Outside] [0] [] None in
  ∃ s', return_index_alone 0 1 None s = Some s'
      ∧ ¬ flagged s s'
      ∧ indexList (pool s') = indexList (pool s) ++ [1]
      ∧ ¬ conserved 2 s'.
Proof.
  intros s.
  apply (returnIndex_has_no_guard 1 2 threadIDpool
           ((0%nat,.) <$> [CallGet; go; go; go; go; go; go]) s 0%nat 1 None
           (CondReady [])).
  - vm_compute. reflexivity.
  - vm_compute. reflexivity.
  - reflexivity.
  - reflexivity.
  - reflexivity.
  - reflexivity.
  - right. refine (bool_decide_unpack (1 ∉ checked_out s) _).
    vm_compute. exact I.
Defined.

(** C10.  [returnIndex] succeeds for every integer and every list: the
    statement at line 127 appends its argument whatever the list holds,
    and a call that finds the mutex free and whose primitives succeed
    returns normally with the identifier at the back of the list, the list
    longer by one and all earlier elements where they were.  The length of
    the list is not bounded by the capacity. *)
Theorem returnIndex_total :
  (∀ (t : tid) (i e : Z) (w : option tid) (p : ThreadIDPool),
     returnIndex_step t L127 i e w p
     = Some (Normal (with_indexList (indexList p ++ [i]) p,
                     Goto (InReturn L128 i))))
  ∧ (∀ (t : tid) (id : Z) (w : option tid) (s : system) (c : Cond_t),
       threads s !! t = Some Outside →
       exited s = None →
       lock (pool s) = MutexFree →
       pthread_cond_signal 0 w (pool_not_empty_condition (pool s)) = Some c →
       ∃ s', return_index_alone t id w s = Some s'
           ∧ exited s' = None
           ∧ stdout s' = stdout s
           ∧ indexList (pool s') = indexList (pool s) ++ [id]
           ∧ length (indexList (pool s')) = S (length (indexList (pool s)))
           ∧ last (indexList (pool s')) = Some id
           ∧ (∀ (k : nat) x, indexList (pool s) !! k = Some x →
                             indexList (pool s') !! k = Some x))
  ∧ (∀ (n : nat) (capacity id : Z) p0, 0 ≤ capacity → (0 < n)%nat →
       ∃ s', return_index_alone 0 id None (launch n capacity 0 0 p0) = Some s'
           ∧ Z.of_nat (length (indexList (pool s'))) = capacity + 1).
Proof.
  split_and!.
  - done.
  - intros t id w s c Hf Hex Hlock Hsig. eexists.
    split; [by eapply return_index_alone_back|]. cbn. split_and!; try done.
    + rewrite length_app. cbn. lia.
    + apply last_snoc.
    + intros k x Hk. by apply lookup_app_l_Some.
  - intros n capacity id p0 Hcap Hn. rewrite launch_start. eexists.
    split.
    + eapply return_index_alone_back; try done.
      cbn. apply lookup_replicate_2. lia.
    + cbn. rewrite length_app, length_seqZ. cbn. lia.
Qed.

Lemma returnIndex_total_witness :
  let s := MkSystem (MkPool [0; 1] MutexFree (CondReady [])) [Outside] [] [] None in
  (∃ s', return_index_alone 0 (-9) None s = Some s'
       ∧ exited s' = None
       ∧ stdout s' = stdout s
       ∧ indexList (pool s') = indexList (pool s) ++ [-9]
       ∧ length (indexList (pool s')) = S (length (indexList (pool s)))
       ∧ last (indexList (pool s')) = Some (-9)
       ∧ (∀ (k : nat) x, indexList (pool s) !! k = Some x →
                         indexList (pool s') !! k = Some x))
  ∧ (∃ s', return_index_alone 0 5 None (launch 1 2 0 0 threadIDpool) = Some s'
         ∧ Z.of_nat (length (indexList (pool s'))) = 2 + 1).
Proof.
  intros s. split.
  - apply (proj1 (proj2 returnIndex_total) 0%nat (-9) None s (CondReady []));
      reflexivity.
  - apply (proj2 (proj2 returnIndex_total) 1%nat 2 5 threadIDpool); lia.
Defined.

(** * The pool under any callers *)

Lemma lock_owned_step t a s s' :
  mutual_exclusion s → lock_owned s → step t a s = Some s' → lock_owned s'.
Proof.
  intros Hmx Hinv H. unfold mutual_exclusion, lock_owned in *. step_cases H.
  all: try done.
  all: assert (Hlen : (t < length ths)%nat) by (by eapply lookup_lt_Some).
  all: try (eexists; split; [by apply list_lookup_insert_eq|done]).
  all: destruct Hinv as (g & Hg & Hh).
  all: destruct (decide (owner = t)) as [->|Hne];
         [ rewrite Hf in Hg; injection Hg as <-;
           first [ discriminate Hh
                 | eexists; split; [by apply list_lookup_insert_eq|done] ]
         | eexists; split; [by rewrite list_lookup_insert_ne|done] ].
Qed.

Lemma elem_of_unblock (u t : tid) (ws : list tid) :
  u ∈ unblock t ws ↔ u ∈ ws ∧ u ≠ t.
Proof. unfold unblock. rewrite list_elem_of_filter. tauto. Qed.

Lemma waiters_wait_step t a s s' :
  waiters_wait s → step t a s = Some s' → waiters_wait s'.
Proof.
  intros (ws & Hc & Hnd & Hinv) H. unfold waiters_wait. step_cases H.
  all: try (by eexists; split_and!; [done|done|done]).
  all: eexists; (split; [reflexivity|]); split.
  all: try exact Hnd.
  all: try (by apply NoDup_filter).
  all: try (intros u Hu; apply elem_of_unblock in Hu as [Hu _]).
  all: try (by apply Hinv).
  all: try (intros u Hu).
  all: try (destruct (Hinv u Hu) as [v Hv];
            destruct (decide (u = t)) as [->|Hne];
            [ rewrite Hf in Hv; first [discriminate Hv | done]
            | exists v; by rewrite list_lookup_insert_ne ]).
  - apply NoDup_app. split_and!; [done| |apply NoDup_singleton].
    intros x Hx Hx'. apply list_elem_of_singleton in Hx' as ->.
    destruct (Hinv t Hx) as [v Hv]. congruence.
  - apply elem_of_app in Hu as [Hu|Hu].
    + destruct (Hinv u Hu) as [v Hv].
      destruct (decide (u = t)) as [->|Hne]; [congruence|].
      exists v. by rewrite list_lookup_insert_ne.
    + apply list_elem_of_singleton in Hu as ->. eexists.
      apply list_lookup_insert_eq. by eapply lookup_lt_Some.
Qed.

Lemma empty_seen_step t a s s' :
  mutual_exclusion s → empty_seen s → step t a s = Some s' → empty_seen s'.
Proof.
  intros Hmx Hinv H. unfold mutual_exclusion, empty_seen in *. step_cases H.
  all: intros u v Hl.
  all: try (by eapply Hinv).
  all: destruct (lookup_insert_frame _ _ _ _ _ _ Hf Hl) as [[-> Heq]|[Hne Hl']];
         try discriminate Heq.
  all: try (by eapply (Hinv _ _ Hl')).
  all: try (by eapply (Hinv _ _ Hf)).
  - by apply bool_decide_eq_true in H.
  - pose proof (Hmx _ _ Hl' eq_refl). pose proof (Hmx _ _ Hf eq_refl).
    congruence.
  - pose proof (Hmx _ _ Hl' eq_refl). pose proof (Hmx _ _ Hf eq_refl).
    congruence.
Qed.

(** *** Counting the awake threads *)

Lemma count_awake_insert ws t0 ths t f f' :
  ths !! t = Some f →
  (count_awake ws t0 (<[t:=f']> ths) + awake1 ws (t0 + t) f
   = count_awake ws t0 ths + awake1 ws (t0 + t) f')%nat.
Proof.
  revert t0 t. induction ths as [|g ths IH]; intros t0 t Hf; [done|].
  destruct t as [|t].
  - injection Hf as ->. change (<[0%nat:=f']> (f :: ths)) with (f' :: ths).
    cbn [count_awake]. rewrite Nat.add_0_r. lia.
  - change (<[S t:=f']> (g :: ths)) with (g :: <[t:=f']> ths).
    cbn [count_awake]. specialize (IH (S t0) t Hf).
    replace (t0 + S t)%nat with (S t0 + t)%nat by lia. lia.
Qed.

(** Unblocking threads can only make more threads awake. *)
Lemma count_awake_mono ws ws' t0 ths :
  ws' ⊆ ws → (count_awake ws t0 ths ≤ count_awake ws' t0 ths)%nat.
Proof.
  intros Hsub. revert t0. induction ths as [|g ths IH]; intros t0; [done|].
  cbn. unfold awake1. specialize (IH (S t0)).
  assert (awake_frame ws t0 g = true → awake_frame ws' t0 g = true).
  { destruct g as [|[] ?|[] ?]; cbn; try done.
    rewrite !bool_decide_eq_true. intros Hn Hin. by apply Hn, Hsub. }
  destruct (awake_frame ws t0 g); [rewrite H by done; lia|].
  destruct (awake_frame ws' t0 g); lia.
Qed.

(** Unblocking a thread that waits makes one more thread awake. *)
Lemma count_awake_unblock ws t0 ths t value :
  ths !! t = Some (InGet L115_waiting value) →
  (t0 + t)%nat ∈ ws →
  (S (count_awake ws t0 ths) ≤ count_awake (unblock (t0 + t) ws) t0 ths)%nat.
Proof.
  revert t0 t. induction ths as [|g ths IH]; intros t0 t Hf Hin; [done|].
  destruct t as [|t]; cbn in *.
  - injection Hf as ->. rewrite Nat.add_0_r in *. unfold awake1. cbn.
    rewrite bool_decide_false by tauto.
    rewrite bool_decide_true
      by (rewrite elem_of_unblock; tauto).
    pose proof (count_awake_mono ws (unblock t0 ws) (S t0) ths) as Hm.
    cbn. apply le_n_S, Hm. intros x. rewrite elem_of_unblock. tauto.
  - replace (t0 + S t)%nat with (S t0 + t)%nat in * by lia.
    specialize (IH (S t0) t Hf Hin). unfold awake1.
    assert (awake_frame ws t0 g = true →
            awake_frame (unblock (S t0 + t) ws) t0 g = true).
    { destruct g as [|[] ?|[] ?]; cbn; try done.
      rewrite !bool_decide_eq_true, elem_of_unblock. tauto. }
    destruct (awake_frame ws t0 g); [rewrite H by done; lia|].
    destruct (awake_frame (unblock (S t0 + t) ws) t0 g); lia.
Qed.



Lemma no_lost_wakeup_step t a s s' :
  waiters_wait s → empty_seen s → no_lost_wakeup s →
  step t a s = Some s' → no_lost_wakeup s'.
Proof.
  intros (ws & Hc & Hnd & Hw) Hes Hinv H.
  unfold no_lost_wakeup, awake, waiters, empty_seen in *. step_cases H.
  all: try exact Hinv.
  all: try match goal with
       | Hf : ?ths !! ?t = Some ?f |- context [ count_awake ?ws' 0 ?X ] =>
           match X with
           | <[t:=?f']> ths =>
               assert (Hcount :
                 (count_awake ws' 0 X + awake1 ws' t f
                  = count_awake ws' 0 ths + awake1 ws' t f')%nat)
                 by exact (count_awake_insert ws' 0 ths t f f' Hf);
               unfold awake1 in Hcount; cbn [awake_frame] in Hcount
           end
       end.
  all: try (destruct Hinv as [Hnil|Hle]; [by left|right;
            repeat case_bool_decide; lia]).
  (* a spurious wakeup *)
  all: try (right; destruct Hinv as [->|Hle];
            [ match goal with Hin : _ ∈ [] |- _ => by apply elem_of_nil in Hin end
            | etransitivity; [exact Hle|];
              apply count_awake_mono; intros x; rewrite elem_of_unblock; tauto ]).
  - (* the list was found empty *)
    apply bool_decide_eq_true in H as ->. right. cbn. lia.
  - (* entering the wait *)
    rewrite (Hes _ _ Hf). right. cbn. lia.
  - (* push_back *)
    rewrite length_app. cbn [length].
    destruct Hinv as [Hnil|Hle]; [by left|right; lia].
  - by left.
  - (* the signal unblocks a waiter *)
    right. destruct Hinv as [->|Hle]; [done|].
    destruct (Hw _ H1) as [v Hv].
    pose proof (count_awake_unblock ws 0 ths t0 v Hv H1) as Hun.
    cbn [Nat.add] in Hun. lia.
Qed.


(** *** What holds whoever calls the pool *)

Lemma pool_sound_step t a s s' :
  pool_sound s → step t a s = Some s' → pool_sound s'.
Proof.
  intros (Hmx & Hfr & Hlo & Hww & Hes & Hnl) H. split_and!.
  - by eapply mutual_exclusion_step.
  - by eapply front_available_step.
  - by eapply lock_owned_step.
  - by eapply waiters_wait_step.
  - by eapply empty_seen_step.
  - by eapply no_lost_wakeup_step.
Qed.

Lemma pool_sound_start n p : ready p → pool_sound (start n p).
Proof.
  intros [Hlock Hcond]. split_and!.
  - apply start_mutual_exclusion.
  - apply start_front_available.
  - unfold lock_owned. cbn. by rewrite Hlock.
  - exists []. cbn. split_and!; [done|constructor|].
    intros t Ht. by apply elem_of_nil in Ht.
  - intros t v Hf. apply lookup_replicate in Hf as [? _]. done.
  - left. unfold waiters. cbn. by rewrite Hcond.
Qed.

Lemma pool_sound_execute n p sched s :
  ready p → execute sched (start n p) = Some s → pool_sound s.
Proof.
  intros Hp Hex.
  eapply (execute_invariant pool_sound);
    [apply pool_sound_step|by apply pool_sound_start|exact Hex].
Qed.

(** With every thread outside the pool, nobody owns the mutex and nobody
    waits. *)
Lemma quiescent_outside (s : system) :
  pool_sound s → exited s = None →
  Forall (λ f, f = Outside) (threads s) → quiescent s.
Proof.
  intros (_ & _ & Hlo & (ws & Hc & _ & Hw) & _ & _) Hlive Hout.
  unfold quiescent. split_and!; [done| | |done].
  - unfold lock_owned in Hlo. destruct (lock (pool s)) as [| |o]; try done.
    destruct Hlo as (f & Hf & Hh).
    rewrite (Forall_lookup_1 _ _ _ _ Hout Hf) in Hh. done.
  - rewrite Hc. f_equal. destruct ws as [|t ws]; [done|].
    destruct (Hw t) as [v Hv]; [by left|].
    pose proof (Forall_lookup_1 _ _ _ _ Hout Hv). done.
Qed.

(** X1.  The list is only touched under the mutex.  In every state reached
    by any interleaving of any calls, at most one thread is between a
    successful [MutexLock] and the matching [MutexUnlock] or wait, and a
    transition that changes [indexList] is taken by the thread that owns
    the mutex. *)
Theorem indexList_guarded_by_lock (n : nat) (p : ThreadIDPool)
    (sched : list (tid * action)) (s : system) :
  execute sched (start n p) = Some s →
  (∀ t1 t2 f1 f2,
     threads s !! t1 = Some f1 → threads s !! t2 = Some f2 →
     holds_lock f1 = true → holds_lock f2 = true → t1 = t2)
  ∧ (∀ t a s',
       step t a s = Some s' →
       indexList (pool s') ≠ indexList (pool s) →
       lock (pool s) = MutexHeld t).
Proof.
  intros Hex.
  assert (Hmx : mutual_exclusion s).
  { eapply (execute_invariant mutual_exclusion);
      [apply mutual_exclusion_step|apply start_mutual_exclusion|exact Hex]. }
  split.
  - intros t1 t2 f1 f2 H1 H2 Hh1 Hh2.
    pose proof (Hmx _ _ H1 Hh1) as E1. pose proof (Hmx _ _ H2 Hh2) as E2.
    congruence.
  - intros t a s' H Hne. clear Hex. unfold mutual_exclusion in Hmx.
    step_cases H; try done.
    all: by apply (Hmx _ _ Hf).
Qed.

Lemma indexList_guarded_by_lock_witness :
  let sched := [ (0%nat, CallGet); (1%nat, CallReturn 9); (0%nat, go);
                 (0%nat, go); (0%nat, go) ] in
  let s := MkSystem (MkPool [5; 3] (MutexHeld 0) (CondReady []))
             [InGet L118 5; InReturn L126 9] [] [] None in
  let s' := MkSystem (MkPool [3] (MutexHeld 0) (CondReady []))
              [InGet L120 5; InReturn L126 9] [] [] None in
  step 0 go s = Some s' ∧ lock (pool s) = MutexHeld 0.
Proof.
  intros sched s s'. split; [vm_compute; reflexivity|].
  apply (proj2 (indexList_guarded_by_lock 2
                  (MkPool [5; 3] MutexFree (CondReady [])) sched s
                  ltac:(vm_compute; reflexivity)) 0%nat go s').
  - vm_compute. reflexivity.
  - refine (bool_decide_unpack ([3] ≠ [5; 3]) _). vm_compute. exact I.
Defined.

(** X2.  The mutex is released on every path out of the pool, and nobody
    is left on the condition variable: in every state reached from an
    initialised pool in which all threads are outside the pool and the
    process has not ended, the mutex is free and no thread is blocked. *)
Theorem lock_released_outside (n : nat) (p : ThreadIDPool)
    (sched : list (tid * action)) (s : system) :
  ready p →
  execute sched (start n p) = Some s →
  exited s = None →
  Forall (λ f, f = Outside) (threads s) →
  quiescent s.
Proof.
  intros Hp Hex Hlive Hout.
  apply quiescent_outside; [|done|done].
  by eapply pool_sound_execute.
Qed.

Lemma lock_released_outside_witness :
  let sched := [ (0%nat, CallGet); (0%nat, go); (0%nat, go); (0%nat, go);
                 (1%nat, CallReturn 4); (1%nat, go); (1%nat, go);
                 (1%nat, Stmt 0 (Some 0%nat)); (1%nat, go);
                 (0%nat, go); (0%nat, go); (0%nat, go); (0%nat, go);
                 (0%nat, go); (0%nat, go) ] in
  let s := MkSystem (MkPool [] MutexFree (CondReady []))
             [Outside; Outside] [4] [] None in
  execute sched (start 2 (MkPool [] MutexFree (CondReady []))) = Some s
  ∧ quiescent s.
Proof.
  intros sched s. split; [vm_compute; reflexivity|].
  apply (lock_released_outside 2 (MkPool [] MutexFree (CondReady [])) sched s).
  - split; reflexivity.
  - vm_compute. reflexivity.
  - reflexivity.
  - repeat constructor.
Defined.

(** X3.  No wakeup is lost.  In every state reached from an initialised
    pool, when some thread is blocked on the condition variable there are
    at least as many awake threads inside the pool (at the loop test, on
    their way to [pop_front], back from the wait, or about to signal) as
    there are identifiers on the list.  The threads on the condition
    variable are inside [pthread_cond_wait], each listed once. *)
Theorem no_wakeup_lost (n : nat) (p : ThreadIDPool)
    (sched : list (tid * action)) (s : system) (t : tid) :
  ready p →
  execute sched (start n p) = Some s →
  t ∈ waiters s →
  (length (indexList (pool s)) ≤ awake s)%nat
  ∧ NoDup (waiters s)
  ∧ ∃ value, threads s !! t = Some (InGet L115_waiting value).
Proof.
  intros Hp Hex Ht.
  destruct (pool_sound_execute n p sched s Hp Hex)
    as (_ & _ & _ & (ws & Hc & Hnd & Hw) & _ & Hnl).
  assert (Hws : waiters s = ws) by (unfold waiters; by rewrite Hc).
  rewrite Hws in *. split_and!.
  - destruct Hnl as [Hnil|Hle]; [|done].
    rewrite Hws in Hnil. subst ws. by apply elem_of_nil in Ht.
  - done.
  - by apply Hw.
Qed.

Lemma no_wakeup_lost_witness :
  let sched := [ (0%nat, CallGet); (0%nat, go); (0%nat, go); (0%nat, go);
                 (1%nat, CallGet); (1%nat, go); (1%nat, go); (1%nat, go);
                 (2%nat, CallReturn 4); (2%nat, go); (2%nat, go);
                 (2%nat, Stmt 0 (Some 1%nat)) ] in
  let s := MkSystem (MkPool [4] (MutexHeld 2) (CondReady [0%nat]))
             [InGet L115_waiting (-1); InGet L115_waiting (-1); InReturn L129 4]
             [] [] None in
  execute sched (start 3 (MkPool [] MutexFree (CondReady []))) = Some s
  ∧ awake s = 1%nat
  ∧ (length (indexList (pool s)) ≤ awake s)%nat.
Proof.
  intros sched s. split; [vm_compute; reflexivity|].
  split; [vm_compute; reflexivity|].
  apply (no_wakeup_lost 3 (MkPool [] MutexFree (CondReady [])) sched s 0%nat).
  - split; reflexivity.
  - vm_compute. reflexivity.
  - vm_compute. left.
Defined.



(** *** Progress *)

Lemma frames_all_or_one (P : tid → frame → bool) (ths : list frame) :
  (∃ t f, ths !! t = Some f ∧ P t f = true)
  ∨ (∀ t f, ths !! t = Some f → P t f = false).
Proof.
  revert P. induction ths as [|g ths IH]; intros P.
  - right. intros t f Hf. done.
  - destruct (P 0%nat g) eqn:Hg.
    + left. by exists 0%nat, g.
    + destruct (IH (λ t, P (S t))) as [(t & f & Hf & HP)|Hall].
      * left. by exists (S t), f.
      * right. intros [|t] f Hf; [by injection Hf as <-|by apply Hall].
Qed.

Lemma count_awake_zero ws t0 ths :
  (∀ t f, ths !! t = Some f → awake_frame ws (t0 + t) f = false) →
  count_awake ws t0 ths = 0%nat.
Proof.
  revert t0. induction ths as [|g ths IH]; intros t0 Hall; [done|].
  cbn [count_awake]. unfold awake1.
  rewrite <- (Nat.add_0_r t0) at 1. rewrite (Hall 0%nat g eq_refl).
  rewrite IH; [done|]. intros t f Hf.
  replace (S t0 + t)%nat with (t0 + S t)%nat by lia. by apply Hall.
Qed.

(** The owner of the mutex can always run its next statement. *)
Lemma owner_can_run (s : system) (o : tid) (g : frame) (ws : list tid) :
  front_available s →
  exited s = None →
  pool_not_empty_condition (pool s) = CondReady ws →
  lock (pool s) = MutexHeld o →
  threads s !! o = Some g → holds_lock g = true →
  ∃ w s', step o (Stmt 0 w) s = Some s'.
Proof.
  intros Hfr Hex Hc Hlock Hg Hh. pose proof (Hfr _ _ Hg) as Hfront.
  destruct s as [[l m c] ths h out ex]. cbn in *. subst.
  unfold step, thread_step. cbn. rewrite Hg. cbn.
  destruct g as [|[] v|[] i]; try discriminate Hh; cbn.
  all: unfold MutexUnlock, CondSignal, pthread_mutex_unlock,
         pthread_cond_signal, pthread_cond_wait_enter, front, pop_front.
  all: cbn; rewrite ?decide_True by done; cbn.
  all: try (by eexists None, _).
  - destruct (empty l); by eexists None, _.
  - destruct l; [done|]. by eexists None, _.
  - destruct Hfront as [rest ->]. by eexists None, _.
  - destruct ws as [|w0 ws].
    + exists None. destruct (decide (0 = 0)); [|done]. cbn. by eexists.
    + exists (Some w0). destruct (decide (0 = 0)); [|done].
      destruct (decide (w0 ∈ w0 :: ws)) as [|Hn];
        [|exfalso; apply Hn, list_elem_of_here].
      cbn. by eexists.
Qed.

(** With the mutex free, a thread that is inside the pool and not blocked
    can run its next statement. *)
Lemma free_can_run (s : system) (t : tid) (f : frame) (ws : list tid) :
  mutual_exclusion s →
  exited s = None →
  pool_not_empty_condition (pool s) = CondReady ws →
  lock (pool s) = MutexFree →
  threads s !! t = Some f → parked ws t f = false →
  ∃ w s', step t (Stmt 0 w) s = Some s'.
Proof.
  intros Hmx Hex Hc Hlock Hf Hp.
  assert (Hcs : holds_lock f = false).
  { destruct (holds_lock f) eqn:Hh; [|done].
    pose proof (Hmx _ _ Hf Hh). congruence. }
  destruct s as [[l m c] ths h out ex]. cbn in *. subst.
  unfold step, thread_step. cbn. rewrite Hf. cbn.
  destruct f as [|[] v|[] i]; try discriminate Hcs; try discriminate Hp; cbn.
  all: unfold MutexLock, CondWait, pthread_mutex_lock,
         pthread_cond_wait_return.
  all: cbn; rewrite ?decide_True by done; cbn.
  all: try (by eexists None, _).
  apply bool_decide_eq_false in Hp. rewrite decide_False by done.
  cbn. by eexists None, _.
Qed.

(** X5.  The pool does not get stuck by itself.  In every state reached
    from an initialised pool in which the process has not ended, either
    some thread can run its next statement with no primitive failing, or
    every thread is outside the pool or blocked on the condition variable;
    and in the second case, if any thread is blocked there is no
    identifier on the list. *)
Theorem pool_never_stuck (n : nat) (p : ThreadIDPool)
    (sched : list (tid * action)) (s : system) :
  ready p →
  execute sched (start n p) = Some s →
  exited s = None →
  (∃ t w s', step t (Stmt 0 w) s = Some s')
  ∨ ((∀ t f, threads s !! t = Some f → parked (waiters s) t f = true)
     ∧ (waiters s ≠ [] → indexList (pool s) = [])).
Proof.
  intros Hp Hex Hlive.
  destruct (pool_sound_execute n p sched s Hp Hex)
    as (Hmx & Hfr & Hlo & (ws & Hc & Hnd & Hw) & _ & Hnl).
  assert (Hws : waiters s = ws) by (unfold waiters; by rewrite Hc).
  rewrite Hws.
  destruct (frames_all_or_one (λ t f, negb (parked ws t f)) (threads s))
    as [(t & f & Hf & HP)|Hall].
  - left. apply negb_true_iff in HP. unfold lock_owned in Hlo.
    destruct (lock (pool s)) as [| |o] eqn:Hlock; [done| |].
    + exists t. by eapply free_can_run.
    + destruct Hlo as (g & Hg & Hh). exists o. by eapply owner_can_run.
  - right.
    assert (Hparked : ∀ t f, threads s !! t = Some f → parked ws t f = true).
    { intros t f Hf. specialize (Hall t f Hf). by apply negb_false_iff in Hall. }
    split; [exact Hparked|]. intros Hne.
    destruct Hnl as [Hnil|Hle]; [congruence|].
    unfold awake in Hle. rewrite Hws in Hle.
    rewrite count_awake_zero in Hle.
    + destruct (indexList (pool s)); [done|cbn in Hle; lia].
    + intros t f Hf. specialize (Hparked t f Hf). cbn.
      destruct f as [|[] v|[] i]; try discriminate Hparked; cbn; try done.
      apply bool_decide_eq_true in Hparked.
      by apply bool_decide_eq_false; intros Hn.
Qed.

Lemma pool_never_stuck_witness :
  let sched := [ (0%nat, CallGet); (0%nat, go); (0%nat, go); (0%nat, go);
                 (1%nat, CallGet); (1%nat, go); (1%nat, go); (1%nat, go) ] in
  let s := MkSystem (MkPool [] MutexFree (CondReady [0%nat; 1%nat]))
             [InGet L115_waiting (-1); InGet L115_waiting (-1)] [] [] None in
  execute sched (start 2 (MkPool [] MutexFree (CondReady []))) = Some s
  ∧ ((∃ t w s', step t (Stmt 0 w) s = Some s')
     ∨ ((∀ t f, threads s !! t = Some f → parked (waiters s) t f = true)
        ∧ (waiters s ≠ [] → indexList (pool s) = []))).
Proof.
  intros sched s. split; [vm_compute; reflexivity|].
  apply (pool_never_stuck 2 (MkPool [] MutexFree (CondReady [])) sched s).
  - split; reflexivity.
  - vm_compute. reflexivity.
  - reflexivity.
Defined.

(** *** Handing an identifier to a blocked thread *)



(** * The callers *)

(** What a transition of the pool does to the frame of the thread that
    takes it and to the identifiers in the callers' hands. *)
Lemma step_in_get t pc v e w s s' :
  threads s !! t = Some (InGet pc v) →
  step t (Stmt e w) s = Some s' →
  (pc = L121 ∧ threads s' = <[t:=Outside]> (threads s) ∧ held s' = v :: held s)
  ∨ (pc ≠ L121 ∧ held s' = held s ∧
     ∃ pc' v', threads s' = <[t:=InGet pc' v']> (threads s)).
Proof.
  intros Hat H. step_cases H.
  all: try (left; by split_and!).
  all: right; split_and!; try done.
  all: try (by eexists _, _).
  all: eexists _, _; symmetry; by apply list_insert_id.
Qed.

Lemma step_in_return t pc i e w s s' :
  threads s !! t = Some (InReturn pc i) →
  step t (Stmt e w) s = Some s' →
  held s' = held s ∧
  (threads s' = <[t:=Outside]> (threads s)
   ∨ ∃ pc', threads s' = <[t:=InReturn pc' i]> (threads s)).
Proof.
  intros Hat H. step_cases H.
  all: split; [done|].
  all: try (by left).
  all: right; try (by eexists).
  all: eexists; symmetry; by apply list_insert_id.
Qed.

Lemma step_wakeup t s s' :
  step t Wakeup s = Some s' → threads s' = threads s ∧ held s' = held s.
Proof. intros H. step_cases H; done. Qed.

Lemma step_call_get t s s' :
  threads s !! t = Some Outside →
  step t CallGet s = Some s' →
  threads s' = <[t:=InGet L113 (-1)]> (threads s) ∧ held s' = held s.
Proof.
  intros Hat H. step_cases H. all: done.
Qed.

Lemma step_call_return t i s s' :
  threads s !! t = Some Outside →
  step t (CallReturn i) s = Some s' →
  threads s' = <[t:=InReturn L126 i]> (threads s)
  ∧ held s' = remove_first i (held s).
Proof.
  intros Hat H. step_cases H. all: done.
Qed.

Lemma slot_insert (cs : list caller) (t : nat) (c c' : caller) :
  cs !! t = Some c →
  ∃ before after,
    concat (slot <$> cs) = before ++ slot c ++ after ∧
    concat (slot <$> <[t:=c']> cs) = before ++ slot c' ++ after.
Proof.
  intros Hc.
  exists (concat (slot <$> take t cs)), (concat (slot <$> drop (S t) cs)).
  split.
  - rewrite <- (take_drop_middle cs t c Hc) at 1.
    by rewrite fmap_app, fmap_cons, concat_app.
  - rewrite insert_take_drop by (by eapply lookup_lt_Some).
    by rewrite fmap_app, fmap_cons, concat_app.
Qed.

Lemma agrees_lookup cs ths t c :
  Forall2 agrees cs ths → cs !! t = Some c →
  ∃ f, ths !! t = Some f ∧ agrees c f.
Proof. intros Hag Hc. by eapply Forall2_lookup_l. Qed.

Lemma agrees_frame cs ths t c f' :
  Forall2 agrees cs ths → cs !! t = Some c → agrees c f' →
  Forall2 agrees cs (<[t:=f']> ths).
Proof.
  intros Hag Hc Hcf. rewrite <- (list_insert_id cs t c Hc).
  by apply Forall2_insert.
Qed.

Lemma agrees_caller cs ths t f c' :
  Forall2 agrees cs ths → ths !! t = Some f → agrees c' f →
  Forall2 agrees (<[t:=c']> cs) ths.
Proof.
  intros Hag Hf Hcf. rewrite <- (list_insert_id ths t f Hf).
  by apply Forall2_insert.
Qed.

(** Printing does not touch the pool. *)
Lemma pool_invariant_print capacity c s :
  pool_invariant capacity s → pool_invariant capacity (print c s).
Proof. intros H. exact H. Qed.

Ltac slots_at Hc c' :=
  match type of Hc with
  | ?cs !! ?t = Some ?c =>
      let before := fresh "before" in
      let after := fresh "after" in
      let E1 := fresh "E" in
      let E2 := fresh "E" in
      destruct (slot_insert cs t c c' Hc) as (before & after & E1 & E2);
      rewrite E2; rewrite E1 in *; cbn [slot app] in *
  end.

Lemma program_invariant_step capacity t mv ps ps' :
  program_invariant capacity ps →
  program_step t mv ps = Some ps' →
  program_invariant capacity ps'.
Proof.
  intros (Hpool & Hag & Hheld) H. destruct ps as [s cs].
  unfold program_step, caller_step in H. unfold tid in *.
  cbn [sys callers] in *.
  destruct (exited s) eqn:Hex; [done|].
  destruct (cs !! t) as [c|] eqn:Hc; [|done].
  cbn [mbind option_bind] in H.
  destruct (agrees_lookup _ _ _ _ Hag Hc) as (f & Hf & Hcf).
  unfold program_invariant, slots in *. cbn [sys callers] in *.
  destruct c as [|b|b i|b i|b i|b i], mv as [b'|e w|];
    cbn [sys callers] in H; try done.
  all: destruct f as [|pc v|pc j]; try done.
  (* a wakeup changes neither the frames nor what the callers hold *)
  all: try (destruct (step t Wakeup s) as [s'|] eqn:Hs; [|done];
            injection H as <-; cbn;
            destruct (step_wakeup _ _ _ Hs) as [Hth Hh];
            split_and!;
            [ eapply pool_invariant_step; [exact Hpool| |exact Hs]; reflexivity
            | by rewrite Hth | by rewrite Hh ]).
  - (* the call of PARALLEL_GET_THREAD_ID *)
    destruct (step t CallGet s) as [s'|] eqn:Hs; [|done].
    injection H as <-. cbn.
    destruct (step_call_get _ _ _ Hf Hs) as [Hth Hh].
    split_and!.
    + (eapply pool_invariant_step; [exact Hpool| |exact Hs]; reflexivity).
    + rewrite Hth. by apply Forall2_insert.
    + rewrite Hh. by slots_at Hc (Getting b').
  - (* inside getIndexBlocking *)
    destruct (step t (Stmt e w) s) as [s'|] eqn:Hs; [|done].
    cbn [mbind option_bind] in H. rewrite Hf in H.
    destruct (step_in_get _ _ _ _ _ _ _ Hf Hs)
      as [(-> & Hth & Hh)|(Hpc & Hh & pc' & v' & Hth)].
    + injection H as <-. cbn. split_and!.
      * (eapply pool_invariant_step; [exact Hpool| |exact Hs]; reflexivity).
      * rewrite Hth. by apply Forall2_insert.
      * rewrite Hh. slots_at Hc (Sleeping b v). rewrite Hheld.
        solve_Permutation.
    + assert (ps' = MkProgram s' cs) as -> by (destruct pc; congruence).
      cbn. split_and!.
      * (eapply pool_invariant_step; [exact Hpool| |exact Hs]; reflexivity).
      * rewrite Hth. by eapply agrees_frame.
      * by rewrite Hh.
  - (* sleep *)
    injection H as <-. cbn. split_and!; [done| |].
    + by eapply agrees_caller.
    + by slots_at Hc (Printing b i).
  - (* printf *)
    injection H as <-. cbn. split_and!; [done| |].
    + by eapply agrees_caller.
    + by slots_at Hc (Releasing b i).
  - (* the call of PARALLEL_RETURN_THREAD_ID *)
    destruct (step t (CallReturn i) s) as [s'|] eqn:Hs; [|done].
    injection H as <-. cbn.
    destruct (step_call_return _ _ _ _ Hf Hs) as [Hth Hh].
    assert (Hin : i ∈ held s).
    { rewrite Hheld.
      destruct (slot_insert cs t _ Idle Hc) as (bef & aft & E & _).
      rewrite E. cbn [slot]. rewrite !elem_of_app.
      right. left. apply list_elem_of_here. }
    split_and!.
    + eapply pool_invariant_step; [done| |done]. cbn.
      by apply bool_decide_eq_true.
    + rewrite Hth. by apply Forall2_insert.
    + rewrite Hh. slots_at Hc (Returning b i).
      apply (Permutation_cons_inv (a := i)).
      rewrite <- (remove_first_elem i (held s) Hin), Hheld.
      solve_Permutation.
  - (* inside returnIndex *)
    destruct (step t (Stmt e w) s) as [s'|] eqn:Hs; [|done].
    cbn [mbind option_bind] in H. cbn in Hcf. subst j.
    destruct (step_in_return _ _ _ _ _ _ _ Hf Hs) as [Hh [Hth|[pc' Hth]]].
    + rewrite Hth in H.
      rewrite list_lookup_insert_eq in H by (by eapply lookup_lt_Some).
      injection H as <-. cbn. split_and!.
      * (eapply pool_invariant_step; [exact Hpool| |exact Hs]; reflexivity).
      * rewrite Hth. by apply Forall2_insert.
      * rewrite Hh. by slots_at Hc Idle.
    + assert (Hlook : threads s' !! t = Some (InReturn pc' i)).
      { rewrite Hth. apply list_lookup_insert_eq. by eapply lookup_lt_Some. }
      rewrite Hlook in H. injection H as <-. cbn. split_and!.
      * (eapply pool_invariant_step; [exact Hpool| |exact Hs]; reflexivity).
      * rewrite Hth. by eapply agrees_frame.
      * by rewrite Hh.
Qed.

(** A transition of the program is a transition of the pool, a [printf],
    or a [sleep]. *)
Lemma program_step_sys t mv ps ps' :
  program_step t mv ps = Some ps' →
  (∃ a, step t a (sys ps) = Some (sys ps'))
  ∨ (∃ b i, callers ps !! t = Some (Printing b i) ∧
            sys ps' = print (report b i) (sys ps))
  ∨ sys ps' = sys ps.
Proof.
  intros H. destruct ps as [s cs].
  unfold program_step, caller_step in H. cbn [sys callers] in *.
  destruct (exited s); [done|].
  destruct (cs !! t) as [c|] eqn:Hc; [|done]. cbn [mbind option_bind] in H.
  destruct c as [|b|b i|b i|b i|b i], mv as [b'|e w|]; try done.
  all: try (destruct (step t _ s) as [s'|] eqn:Hs; [|done];
            cbn [mbind option_bind] in H; left; eexists;
            repeat case_match; injection H as <-; exact Hs).
  - injection H as <-. by right; right.
  - injection H as <-. right; left. by eexists _, _.
Qed.

Lemma run_invariant (I : program → Prop) :
  (∀ t mv ps ps', I ps → program_step t mv ps = Some ps' → I ps') →
  ∀ sched ps ps', I ps → run sched ps = Some ps' → I ps'.
Proof.
  intros Hstep. induction sched as [|[t mv] sched IH]; intros ps ps' HI Hrun.
  - by injection Hrun as <-.
  - cbn in Hrun. destruct (program_step t mv ps) as [ps1|] eqn:Hs; [|done].
    eapply IH; [|exact Hrun]. by eapply Hstep.
Qed.

Lemma fresh_launch capacity n p0 :
  fresh capacity n (launch n capacity 0 0 p0).
Proof. rewrite launch_start. by split_and!. Qed.

Lemma fresh_print capacity n c s :
  fresh capacity n s → fresh capacity n (print c s).
Proof. intros H. exact H. Qed.

Lemma program_invariant_region capacity n s :
  fresh capacity n s → program_invariant capacity (region n s).
Proof.
  intros ([Hlock Hcond] & Hl & Hth & Hh & Hex). unfold region.
  split_and!; cbn [sys callers].
  - split_and!.
    + intros t f Hf. rewrite Hth in Hf.
      apply lookup_replicate in Hf as [-> _]. done.
    + intros t f Hf. rewrite Hth in Hf.
      apply lookup_replicate in Hf as [-> _]. done.
    + unfold conserved, checked_out.
      by rewrite Hl, Hh, Hth, in_flight_replicate, app_nil_r.
  - rewrite Hth. apply Forall2_replicate. done.
  - unfold slots. cbn [sys callers]. rewrite Hh. clear.
    induction n as [|n IH]; [done|]. cbn. exact IH.
Qed.

Lemma program_invariant_run capacity n s sched ps :
  fresh capacity n s → run sched (region n s) = Some ps →
  program_invariant capacity ps.
Proof.
  intros Hfresh Hrun.
  eapply (run_invariant (program_invariant capacity));
    [apply program_invariant_step|by apply program_invariant_region|exact Hrun].
Qed.

Lemma pool_sound_print c s : pool_sound s → pool_sound (print c s).
Proof. intros H. exact H. Qed.

Lemma pool_sound_run capacity n s sched ps :
  fresh capacity n s → run sched (region n s) = Some ps → pool_sound (sys ps).
Proof.
  intros Hfresh Hrun.
  refine (run_invariant (λ ps, pool_sound (sys ps)) _ sched (region n s) ps _ Hrun).
  - clear. intros t mv ps ps' HI H.
    destruct (program_step_sys _ _ _ _ H) as [[a Ha]|[(b & i & _ & ->)| ->]].
    + by eapply pool_sound_step.
    + by apply pool_sound_print.
    + done.
  - destruct Hfresh as (Hready & _ & Hth & Hh & Hex).
    destruct s as [p ths h out ex]. cbn in *. subst.
    destruct Hready as [Hlock Hcond]. split_and!.
    + apply start_mutual_exclusion.
    + apply start_front_available.
    + unfold lock_owned. cbn. by rewrite Hlock.
    + exists []. cbn. split_and!; [done|constructor|].
      intros t Ht. by apply elem_of_nil in Ht.
    + intros t v Hf. apply lookup_replicate in Hf as [? _]. done.
    + left. unfold waiters. cbn. by rewrite Hcond.
Qed.

Lemma slot_elem (cs : list caller) (t : nat) (c : caller) (i : Z) :
  cs !! t = Some c → i ∈ slot c → i ∈ concat (slot <$> cs).
Proof.
  intros Hc Hi. destruct (slot_insert cs t c Idle Hc) as (bef & aft & E & _).
  rewrite E, !elem_of_app. auto.
Qed.

Lemma slot_in_range capacity ps (t : nat) c i :
  program_invariant capacity ps →
  callers ps !! t = Some c → i ∈ slot c → 0 ≤ i < capacity.
Proof.
  intros ((_ & _ & Hco) & _ & Hheld) Hc Hi.
  assert (Hin : i ∈ indexList (pool (sys ps)) ++ checked_out (sys ps)).
  { unfold checked_out. rewrite !elem_of_app, Hheld. right; left.
    by eapply slot_elem. }
  unfold conserved in Hco. rewrite Hco in Hin.
  apply elem_of_seqZ in Hin. lia.
Qed.

(** X7.  The bodies keep the contract of the pool.  From a freshly
    initialised pool, however the runtime hands the bodies of
    [parallel_for_inside_task] and [parallel_task_only] to the threads and
    interleaves them, the available list and the checked-out identifiers
    always make up [0 .. capacity-1], and the identifiers in the callers'
    hands are exactly those of the threads that are between
    [PARALLEL_GET_THREAD_ID] and [PARALLEL_RETURN_THREAD_ID]. *)
Theorem callers_keep_contract (capacity : Z) (n : nat) (s0 : system)
    (sched : list (tid * move)) (ps : program) :
  fresh capacity n s0 →
  run sched (region n s0) = Some ps →
  indexList (pool (sys ps)) ++ checked_out (sys ps) ≡ₚ seqZ 0 capacity
  ∧ held (sys ps) ≡ₚ slots ps.
Proof.
  intros Hfresh Hrun.
  destruct (program_invariant_run capacity n s0 sched ps Hfresh Hrun)
    as ((_ & _ & Hco) & _ & Hheld).
  by split.
Qed.

Lemma callers_keep_contract_witness :
  let sched := [ (0%nat, Begin (ForInsideTaskSleep 10 10 0));
                 (1%nat, Begin (ForInsideTaskSleep 10 10 1));
                 (0%nat, Run 0 None); (0%nat, Run 0 None); (0%nat, Run 0 None);
                 (0%nat, Run 0 None); (0%nat, Run 0 None); (0%nat, Run 0 None);
                 (1%nat, Run 0 None); (1%nat, Run 0 None); (1%nat, Run 0 None);
                 (1%nat, Run 0 None); (0%nat, Run 0 None) ] in
  let ps := MkProgram
              (MkSystem (MkPool [] (MutexHeld 1) (CondReady []))
                 [Outside; InGet L120 1]
                 [0] [Printf "begin, n_thread = %d\n" [ArgInt 2]] None)
              [Printing (ForInsideTaskSleep 10 10 0) 0;
               Getting (ForInsideTaskSleep 10 10 1)] in
  run sched (main_region 2 0 0) = Some ps
  ∧ indexList (pool (sys ps)) ++ checked_out (sys ps) ≡ₚ seqZ 0 2
  ∧ held (sys ps) ≡ₚ slots ps.
Proof.
  intros sched ps. split; [vm_compute; reflexivity|].
  apply (callers_keep_contract 2 2
           (print (Printf "begin, n_thread = %d\n" [ArgInt 2])
              (launch 2 2 0 0 threadIDpool)) sched ps).
  - vm_compute. repeat split.
  - vm_compute. reflexivity.
Defined.

Lemma slots_distinct (cs : list caller) (t1 t2 : nat) (c1 c2 : caller) (i : Z) :
  NoDup (concat (slot <$> cs)) →
  cs !! t1 = Some c1 → cs !! t2 = Some c2 →
  i ∈ slot c1 → i ∈ slot c2 → t1 = t2.
Proof.
  intros Hnd H1 H2 Hi1 Hi2.
  destruct (decide (t1 = t2)) as [|Hne]; [done|exfalso].
  destruct (slot_insert cs t1 c1 Idle H1) as (bef & aft & E1 & E2).
  assert (Hin : i ∈ bef ++ aft).
  { change (bef ++ aft) with (bef ++ slot Idle ++ aft). rewrite <- E2.
    eapply (slot_elem _ t2 c2); [|done]. by rewrite list_lookup_insert_ne. }
  rewrite E1 in Hnd.
  assert (Hc1 : slot c1 = [i]).
  { destruct c1; cbn in *; try (by apply elem_of_nil in Hi1).
    all: by apply list_elem_of_singleton in Hi1 as ->. }
  rewrite Hc1 in Hnd.
  assert (Hperm : bef ++ [i] ++ aft ≡ₚ i :: (bef ++ aft)) by solve_Permutation.
  rewrite Hperm in Hnd. apply NoDup_cons in Hnd as [Hnot _]. done.
Qed.

(** X8.  No two threads use the same identifier at the same time.  In
    every state of the program, the identifiers of the threads that are
    between [PARALLEL_GET_THREAD_ID] and [PARALLEL_RETURN_THREAD_ID] lie in
    [0 .. capacity-1] and are pairwise different, so at most [capacity]
    threads are there at once. *)
Theorem slots_exclusive (capacity : Z) (n : nat) (s0 : system)
    (sched : list (tid * move)) (ps : program) :
  fresh capacity n s0 →
  run sched (region n s0) = Some ps →
  (∀ t c i, callers ps !! t = Some c → i ∈ slot c → 0 ≤ i < capacity)
  ∧ (∀ t1 t2 c1 c2 i,
       callers ps !! t1 = Some c1 → callers ps !! t2 = Some c2 →
       i ∈ slot c1 → i ∈ slot c2 → t1 = t2)
  ∧ Z.of_nat (length (slots ps)) ≤ Z.max 0 capacity.
Proof.
  intros Hfresh Hrun.
  pose proof (program_invariant_run capacity n s0 sched ps Hfresh Hrun) as Hinv.
  destruct Hinv as ((Hmx & Hfr & Hco) & Hag & Hheld).
  assert (Hsub : slots ps ⊆+ seqZ 0 capacity).
  { unfold conserved, checked_out in Hco. rewrite <- Hco, <- Hheld.
    by apply submseteq_inserts_l, submseteq_inserts_r. }
  split_and!.
  - intros t c i. by apply slot_in_range.
  - intros t1 t2 c1 c2 i. apply slots_distinct.
    fold (slots ps). rewrite <- Hheld.
    assert (Hnd : NoDup (indexList (pool (sys ps)) ++ checked_out (sys ps)))
      by (unfold conserved in Hco; rewrite Hco; apply NoDup_seqZ).
    unfold checked_out in Hnd.
    apply NoDup_app in Hnd as (_ & _ & Hnd).
    by apply NoDup_app in Hnd as (Hnd & _).
  - apply submseteq_length in Hsub. rewrite length_seqZ in Hsub. lia.
Qed.

Lemma slots_exclusive_witness :
  let sched := [ (0%nat, Begin (TaskOnly 7)); (1%nat, Begin (TaskOnly 8));
                 (2%nat, Begin (TaskOnly 9));
                 (0%nat, Run 0 None); (0%nat, Run 0 None); (0%nat, Run 0 None);
                 (0%nat, Run 0 None); (0%nat, Run 0 None); (0%nat, Run 0 None);
                 (1%nat, Run 0 None); (1%nat, Run 0 None); (1%nat, Run 0 None);
                 (1%nat, Run 0 None); (1%nat, Run 0 None); (1%nat, Run 0 None);
                 (2%nat, Run 0 None); (2%nat, Run 0 None); (2%nat, Run 0 None) ] in
  let ps := MkProgram
              (MkSystem (MkPool [] MutexFree (CondReady [2%nat]))
                 [Outside; Outside; InGet L115_waiting (-1)]
                 [1; 0] [Printf "begin, n_thread = %d\n" [ArgInt 2]] None)
              [Sleeping (TaskOnly 7) 0; Sleeping (TaskOnly 8) 1;
               Getting (TaskOnly 9)] in
  run sched (main_region 3 0 0) = Some ps
  ∧ Z.of_nat (length (slots ps)) ≤ Z.max 0 2.
Proof.
  intros sched ps. split; [vm_compute; reflexivity|].
  apply (slots_exclusive 2 3
           (print (Printf "begin, n_thread = %d\n" [ArgInt 2])
              (launch 3 2 0 0 threadIDpool)) sched ps).
  - vm_compute. repeat split.
  - vm_compute. reflexivity.
Defined.






(** X10.  When the parallel region is over, the pool is whole again.  In
    every state of the program in which all threads are idle and the
    process has not ended, every identifier [0 .. capacity-1] is back on
    the list, nothing is in the callers' hands, the mutex is free and
    nobody waits on the condition variable. *)
Theorem region_leaves_pool_full (capacity : Z) (n : nat) (s0 : system)
    (sched : list (tid * move)) (ps : program) :
  fresh capacity n s0 →
  run sched (region n s0) = Some ps →
  exited (sys ps) = None →
  Forall (λ c, c = Idle) (callers ps) →
  indexList (pool (sys ps)) ≡ₚ seqZ 0 capacity
  ∧ held (sys ps) = []
  ∧ quiescent (sys ps).
Proof.
  intros Hfresh Hrun Hlive Hidle.
  destruct (program_invariant_run capacity n s0 sched ps Hfresh Hrun)
    as ((_ & _ & Hco) & Hag & Hheld).
  assert (Hout : Forall (λ f, f = Outside) (threads (sys ps))).
  { apply Forall_lookup. intros t f Hf.
    destruct (Forall2_lookup_r _ _ _ _ _ Hag Hf) as (c & Hc & Hcf).
    rewrite (Forall_lookup_1 _ _ _ _ Hidle Hc) in Hcf. by destruct f. }
  assert (Hslots : slots ps = []).
  { unfold slots. clear -Hidle.
    induction Hidle as [|c cs -> _ IH]; [done|]. cbn. exact IH. }
  assert (Hflight : concat (in_flight <$> threads (sys ps)) = []).
  { clear -Hout. induction Hout as [|f fs -> _ IH]; [done|]. cbn. exact IH. }
  rewrite Hslots in Hheld. apply Permutation_nil_r in Hheld.
  split_and!.
  - unfold conserved, checked_out in Hco.
    by rewrite Hheld, Hflight, !app_nil_r in Hco.
  - done.
  - apply quiescent_outside; [|done|done]. by eapply pool_sound_run.
Qed.

Lemma region_leaves_pool_full_witness :
  let body := [ Run 0 None; Run 0 None; Run 0 None; Run 0 None; Run 0 None;
                Run 0 None; Run 0 None; Run 0 None; Run 0 None; Run 0 None;
                Run 0 None; Run 0 None; Run 0 None ] in
  let sched := ((0%nat,.) <$> Begin (ForInsideTask 3 9) :: body)
               ++ ((1%nat,.) <$> Begin (TaskOnly 4) :: body) in
  let s0 := print (Printf "begin, n_thread = %d\n" [ArgInt 2])
              (launch 2 2 0 0 threadIDpool) in
  let ps := MkProgram
              (MkSystem (MkPool [0; 1] MutexFree (CondReady []))
                 [Outside; Outside] []
                 [ Printf "begin, n_thread = %d\n" [ArgInt 2];
                   Printf "Thread %2d finish sleeping in task %2d loop %2d\n"
                     [ArgInt 0; ArgInt 3; ArgInt 9];
                   Printf "Thread %d finish sleeping in task %d\n"
                     [ArgInt 1; ArgInt 4] ]
                 None)
              [Idle; Idle] in
  run sched (main_region 2 0 0) = Some ps
  ∧ indexList (pool (sys ps)) ≡ₚ seqZ 0 2
  ∧ held (sys ps) = []
  ∧ quiescent (sys ps).
Proof.
  intros body sched s0 ps. split; [vm_compute; reflexivity|].
  apply (region_leaves_pool_full 2 2 s0 sched ps).
  - vm_compute. repeat split.
  - vm_compute. reflexivity.
  - reflexivity.
  - repeat constructor.
Defined.
